(** * Bitmask.cpp: the [BitMaskBase] class template, embedded and verified

    The C++ source declares one class template,
    [BitMaskBase<MaskType, OpType, TMax>], whose only data member is
    [MaskType Mask].  The embedding below keeps the template parameters as
    parameters of every operation, stores [Mask] as a [Z] together with the
    wrap-around of the storage type, and passes the object explicitly:
    a mutating member function returns the object after the call.

    Conventions.
    - [MaskType] ranges over the fixed-width unsigned types of <cstdint>,
      the storage the driver instantiates the template with.
    - Operands narrower than [int] are promoted to [int] by C++ before any
      arithmetic; the result is converted back on assignment to [Mask].
      Both steps together are the reduction modulo [2 ^ bit_width MaskType] of
      the mathematical result, which is what [static_cast_MaskType] does.
    - A shift by a negative amount, or by at least the width of the promoted
      operand, has no defined result in C++.  The theorems about bit
      positions therefore restrict positions to [0 <= p < bit_width MaskType].
    - Code that cannot be instantiated (a call that does not resolve, an
      operator without a viable overload) yields [None]. *)

From Stdlib Require Import ZArith String Ascii List Bool Lia.
Import ListNotations.
Local Open Scope Z_scope.

(** ** Template parameters *)

(** The storage types [MaskType] can be instantiated with. *)
Inductive UIntType : Type := uint8_t | uint16_t | uint32_t | uint64_t.

Definition sizeof (T : UIntType) : Z :=
  match T with
  | uint8_t => 1
  | uint16_t => 2
  | uint32_t => 4
  | uint64_t => 8
  end.

(** Number of bits of the storage type, [sizeof(MaskType) * 8]. *)
Definition bit_width (T : UIntType) : Z := sizeof T * 8.

(** [std::numeric_limits<MaskType>::max()] *)
Definition numeric_limits_max (T : UIntType) : Z := 2 ^ bit_width T - 1.

(** Conversion of an integer to the unsigned type [T]. *)
Definition static_cast_MaskType (T : UIntType) (v : Z) : Z :=
  v mod 2 ^ bit_width T.

(** [OpType] is either an integral type (the default is [MaskType] itself)
    or a scoped enumeration, whose underlying type is [int]. *)
Inductive OpKind : Type :=
| OpIntegral (T : UIntType)
| OpEnum.

(** [static_cast<OpType>(v)] for an [int] or position value [v]. *)
Definition static_cast_OpType (O : OpKind) (v : Z) : Z :=
  match O with
  | OpIntegral T => static_cast_MaskType T v
  | OpEnum => v
  end.

(** ** The object *)

Record BitMaskBase : Type := { Mask : Z }.

(** The values a [MaskType] member can hold. *)
Definition mask_ok (T : UIntType) (this : BitMaskBase) : Prop :=
  0 <= Mask this < 2 ^ bit_width T.

(** The data-model invariant of the width: [TMax] addresses only bits the
    storage type has. *)
Definition TMax_fits (T : UIntType) (TMax : Z) : Prop :=
  0 <= TMax <= bit_width T.

(** Operands of a built-in binary operator: an integral value, or an object
    of class type. *)
Inductive operand : Type :=
| IntegralOperand (v : Z)
| ObjectOperand (m : BitMaskBase).

(** [l & r].  The built-in operator needs two integral operands;
    [BitMaskBase] declares neither an [operator&] nor a conversion function
    to an integral type, so no overload is viable for an object operand. *)
Definition operator_bitand (l r : operand) : option Z :=
  match l, r with
  | IntegralOperand a, IntegralOperand b => Some (Z.land a b)
  | _, _ => None
  end.

Section BitMaskBase.

Variable MaskType : UIntType.
Variable OpType : OpKind.
Variable TMax : Z.

Local Abbreviation cast := (static_cast_MaskType MaskType).

(** *** Width check *)

Definition IsBitValidPos (pos : Z) : bool :=
  (pos >=? 0) && (pos <=? TMax).

(** The condition of the [static_assert] in the class body. *)
Definition static_assert_TMax : bool := IsBitValidPos TMax.

(** *** Bit manipulation *)

Definition SetBit (this : BitMaskBase) (bitPos : Z) : BitMaskBase :=
  {| Mask := cast (Z.lor (Mask this) (Z.shiftl 1 (cast bitPos))) |}.

(** The fold expression [(SetBit(static_cast<OpType>(bits)), ...)]. *)
Definition SetBits (this : BitMaskBase) (bits : list Z) : BitMaskBase :=
  fold_left (fun m b => SetBit m (static_cast_OpType OpType b)) bits this.

Definition ClearBit (this : BitMaskBase) (bitPos : Z) : BitMaskBase :=
  {| Mask := cast (Z.land (Mask this) (Z.lnot (Z.shiftl 1 (cast bitPos)))) |}.

Definition ResetAllBits (this : BitMaskBase) : BitMaskBase :=
  {| Mask := 0 |}.

Definition ToggleBit (this : BitMaskBase) (bitPos : Z) : BitMaskBase :=
  {| Mask := cast (Z.lxor (Mask this) (Z.shiftl 1 (cast bitPos))) |}.

(** A call by unqualified name from inside the class, with the whole
    argument list passed to one call.  C++ identifiers are case sensitive;
    the single-position mutators are the only functions a position list can
    be passed to, and each takes exactly one position. *)
Definition call_unqualified (name : string) (this : BitMaskBase)
           (args : list Z) : option BitMaskBase :=
  if String.eqb name "SetBit" then
    match args with [p] => Some (SetBit this p) | _ => None end
  else if String.eqb name "ClearBit" then
    match args with [p] => Some (ClearBit this p) | _ => None end
  else if String.eqb name "ToggleBit" then
    match args with [p] => Some (ToggleBit this p) | _ => None end
  else None.

(** The body is [(clearBit(args ...));]. *)
Definition ClearBits (this : BitMaskBase) (args : list Z)
  : option BitMaskBase :=
  call_unqualified "clearBit" this args.

(** *** Constructors *)

Definition BitMaskBase_default : BitMaskBase := {| Mask := 0 |}.

Definition BitMaskBase_copy (other : BitMaskBase) : BitMaskBase :=
  {| Mask := Mask other |}.

Definition BitMaskBase_explicit (initialValue : Z) : BitMaskBase :=
  {| Mask := initialValue |}.

(** [Mask(0)], then [(SetBits(static_cast<OpType>(bits)), ...)]. *)
Definition BitMaskBase_variadic (bits : list Z) : BitMaskBase :=
  fold_left (fun m b => SetBits m [static_cast_OpType OpType b])
            bits {| Mask := 0 |}.

(** *** Queries *)

Definition IsBitSet (this : BitMaskBase) (pos : Z) : bool :=
  negb (Z.land (Mask this) (Z.shiftl 1 (cast pos)) =? 0).

Definition AnyBitSet (this : BitMaskBase) : bool :=
  negb (Mask this =? 0).

(** The body is [(Mask & otherMask) != 0]: the right operand is the
    object, not its [Mask] member. *)
Definition IsAnyBitSetInRange (this otherMask : BitMaskBase) : option bool :=
  match operator_bitand (IntegralOperand (Mask this))
                        (ObjectOperand otherMask) with
  | Some v => Some (negb (v =? 0))
  | None => None
  end.

Definition AllBitsSet (this : BitMaskBase) : bool :=
  Mask this =? numeric_limits_max MaskType.

(** [while (tempMask != 0) { count += tempMask & 1; tempMask >>= 1; }]
    [fuel] bounds the number of iterations; [None] means the bound was
    reached with the loop condition still true. *)
Fixpoint CountSetBits_loop (fuel : nat) (count tempMask : Z) : option Z :=
  if tempMask =? 0 then Some count
  else match fuel with
       | O => None
       | S fuel' =>
           CountSetBits_loop fuel' (count + Z.land tempMask 1)
                             (Z.shiftr tempMask 1)
       end.

(** The loop shifts a [MaskType] value right by one per iteration, so the
    width of the type bounds the iterations. *)
Definition CountSetBits (this : BitMaskBase) : option Z :=
  CountSetBits_loop (Z.to_nat (bit_width MaskType)) 0 (Mask this).

(** [while (tempMask != 0 && count < pos) { ... }] *)
Fixpoint IsBitNSet_loop (fuel : nat) (pos count tempMask : Z) : option Z :=
  if negb (tempMask =? 0) && (count <? pos) then
    match fuel with
    | O => None
    | S fuel' =>
        IsBitNSet_loop fuel' pos (count + Z.land tempMask 1)
                       (Z.shiftr tempMask 1)
    end
  else Some count.

Definition IsBitNSet (this : BitMaskBase) (pos : Z) : option Z :=
  match IsBitNSet_loop (Z.to_nat (bit_width MaskType)) pos 0 (Mask this) with
  | Some count => Some (static_cast_OpType OpType count)
  | None => None
  end.

(** [for (int i = TMax - 1; i >= 0; i--) result += ...;] with [n] the
    number of iterations left, so that [i = n - 1]. *)
Fixpoint toBinaryString_loop (value : Z) (n : nat) (result : string)
  : string :=
  match n with
  | O => result
  | S i =>
      toBinaryString_loop value i
        (result ++ String (if Z.land (Z.shiftr value (Z.of_nat i)) 1 =? 0
                           then "0"%char else "1"%char) EmptyString)
  end.

Definition toBinaryString (this : BitMaskBase) : string :=
  toBinaryString_loop (Mask this) (Z.to_nat TMax) EmptyString.

(** *** Operators *)

Definition operator_plus (this other : BitMaskBase) : BitMaskBase :=
  {| Mask := cast (Z.lor (Mask this) (Mask other)) |}.

Definition operator_minus (this other : BitMaskBase) : BitMaskBase :=
  {| Mask := cast (Z.land (Mask this) (Z.lnot (Mask other))) |}.

Definition operator_plus_assign (this other : BitMaskBase) : BitMaskBase :=
  {| Mask := cast (Z.lor (Mask this) (Mask other)) |}.

Definition operator_minus_assign (this other : BitMaskBase) : BitMaskBase :=
  {| Mask := cast (Z.land (Mask this) (Z.lnot (Mask other))) |}.

Definition operator_xor (this other : BitMaskBase) : BitMaskBase :=
  {| Mask := cast (Z.lxor (Mask this) (Mask other)) |}.

Definition operator_xor_assign (this other : BitMaskBase) : BitMaskBase :=
  {| Mask := cast (Z.lxor (Mask this) (Mask other)) |}.

Definition operator_compl (this : BitMaskBase) : BitMaskBase :=
  {| Mask := cast (Z.lnot (Mask this)) |}.

Definition operator_shl (this : BitMaskBase) (shift : Z) : BitMaskBase :=
  {| Mask := cast (Z.shiftl (Mask this) shift) |}.

Definition operator_shr (this : BitMaskBase) (shift : Z) : BitMaskBase :=
  {| Mask := cast (Z.shiftr (Mask this) shift) |}.

Definition operator_eq (this other : BitMaskBase) : bool :=
  Mask this =? Mask other.

Definition operator_ne (this other : BitMaskBase) : bool :=
  negb (Mask this =? Mask other).

Definition operator_assign (this other : BitMaskBase) : BitMaskBase :=
  {| Mask := Mask other |}.

End BitMaskBase.

(** ** Instantiations used by the driver *)

(** [BitMask<MaskType>]: [OpType = MaskType], [TMax = sizeof(MaskType) * 8]. *)
Definition BitMask_TMax (T : UIntType) : Z := sizeof T * 8.

(** [enum class MyEnum { Value1, Value2, Value3, Value4, MAX }] *)
Inductive MyEnum : Type := Value1 | Value2 | Value3 | Value4 | MAX.

Definition MyEnum_ordinal (e : MyEnum) : Z :=
  match e with
  | Value1 => 0
  | Value2 => 1
  | Value3 => 2
  | Value4 => 3
  | MAX => 4
  end.

(** [Enummask<MyEnum, MaskType>]: [OpType = MyEnum], [TMax = MAX]. *)
Definition Enummask_TMax : Z := MyEnum_ordinal MAX.

(** ** Vocabulary of the statements *)

(** The positions [0, 1, ..., n - 1]. *)
Definition positions (n : Z) : list Z := map Z.of_nat (seq 0 (Z.to_nat n)).

(** Number of positions [p] in [[0, n)] for which [IsBitSet(p)] is true. *)
Definition count_set_positions (T : UIntType) (this : BitMaskBase) (n : Z)
  : Z :=
  Z.of_nat (length (filter (IsBitSet T this) (positions n))).

(** Number of 1-bits of [m] among its [k] lowest bits. *)
Definition ones_below (m : Z) (k : nat) : Z :=
  Z.of_nat (length (filter (Z.testbit m) (map Z.of_nat (seq 0 k)))).

(** The character appended for bit [i] of [value]. *)
Definition bit_char (value : Z) (i : nat) : ascii :=
  if Z.land (Z.shiftr value (Z.of_nat i)) 1 =? 0 then "0"%char else "1"%char.

(** The characters for bits [n - 1] down to [0]. *)
Fixpoint msb_first (value : Z) (n : nat) : string :=
  match n with
  | O => EmptyString
  | S i => String (bit_char value i) (msb_first value i)
  end.

(** ** Masks of the driver *)

(** [bitmask] of [main] after [SetBit(2)] and [SetBit(5)]. *)
Definition bitmask : BitMaskBase :=
  SetBit uint8_t (SetBit uint8_t BitMaskBase_default 2) 5.

(** [bitmask1(3, 0)] and [bitmask3(1, 2)] of [main]. *)
Definition bitmask1 : BitMaskBase :=
  BitMaskBase_variadic uint8_t (OpIntegral uint8_t) [3; 0].

Definition bitmask3 : BitMaskBase :=
  BitMaskBase_variadic uint8_t (OpIntegral uint8_t) [1; 2].

(** [enumMask] of [main] after [SetBit(Value1)] and [SetBit(Value2)]. *)
Definition enumMask : BitMaskBase :=
  SetBit uint16_t
    (SetBit uint16_t BitMaskBase_default (MyEnum_ordinal Value1))
    (MyEnum_ordinal Value2).

(** An [Enummask<MyEnum, uint16_t>] with [Value1] set, shifted left by 4. *)
Definition enumMask_shifted : BitMaskBase :=
  operator_shl uint16_t
    (SetBit uint16_t BitMaskBase_default (MyEnum_ordinal Value1)) 4.

(** The complement of the empty [Enummask<MyEnum, uint16_t>]. *)
Definition enumMask_complement : BitMaskBase :=
  operator_compl uint16_t BitMaskBase_default.

(** * Verification *)

(** Closed range and equality goals, by evaluation. *)
Ltac by_evaluation := vm_compute; repeat split; congruence.

(** ** The driver's scenarios, by evaluation *)

Example main_bitmask1 :
  toBinaryString (BitMask_TMax uint8_t) bitmask = "00100100"%string.
Proof. reflexivity. Qed.

(** ** Storage arithmetic *)

Lemma bit_width_bounds (T : UIntType) : 8 <= bit_width T <= 64.
Proof. destruct T; cbv [bit_width sizeof]; lia. Qed.

Lemma pow2_bit_width_large (T : UIntType) : 256 <= 2 ^ bit_width T.
Proof.
  change 256 with (2 ^ 8).
  apply Z.pow_le_mono_r; [lia | apply bit_width_bounds].
Qed.

Lemma cast_small (T : UIntType) (v : Z) :
  0 <= v < 2 ^ bit_width T -> static_cast_MaskType T v = v.
Proof. intros H. unfold static_cast_MaskType. now apply Z.mod_small. Qed.

(** A position or a count of at most 64 survives every conversion. *)
Lemma cast_le_64 (T : UIntType) (v : Z) :
  0 <= v <= 64 -> static_cast_MaskType T v = v.
Proof.
  intros H. apply cast_small.
  pose proof (pow2_bit_width_large T). lia.
Qed.

Lemma static_cast_OpType_le_64 (O : OpKind) (v : Z) :
  0 <= v <= 64 -> static_cast_OpType O v = v.
Proof. destruct O; simpl; [apply cast_le_64 | reflexivity]. Qed.

Lemma cast_testbit (T : UIntType) (v i : Z) :
  0 <= i ->
  Z.testbit (static_cast_MaskType T v) i = (i <? bit_width T) && Z.testbit v i.
Proof.
  intros Hi. unfold static_cast_MaskType.
  pose proof (bit_width_bounds T) as HB.
  destruct (Z.ltb_spec i (bit_width T)) as [Hlt | Hge]; simpl.
  - apply Z.mod_pow2_bits_low. lia.
  - apply Z.mod_pow2_bits_high. lia.
Qed.

Lemma mask_testbit_high (T : UIntType) (this : BitMaskBase) (i : Z) :
  mask_ok T this -> bit_width T <= i -> Z.testbit (Mask this) i = false.
Proof.
  intros Hok Hi. pose proof (bit_width_bounds T) as HB.
  rewrite <- (cast_small T (Mask this) Hok).
  rewrite cast_testbit by lia.
  destruct (Z.ltb_spec i (bit_width T)); [lia | reflexivity].
Qed.

(** [m & (1 << p)] is non-zero exactly when bit [p] of [m] is 1. *)
Lemma land_one_shl (m p : Z) :
  0 <= p -> negb (Z.land m (Z.shiftl 1 p) =? 0) = Z.testbit m p.
Proof.
  intros Hp. rewrite Z.shiftl_1_l.
  destruct (Z.testbit m p) eqn:Hb.
  - destruct (Z.eqb_spec (Z.land m (2 ^ p)) 0) as [E | E]; [| reflexivity].
    assert (Hc : Z.testbit (Z.land m (2 ^ p)) p = true).
    { rewrite Z.land_spec, Hb, Z.pow2_bits_true by lia. reflexivity. }
    rewrite E, Z.bits_0 in Hc. discriminate.
  - assert (E : Z.land m (2 ^ p) = 0).
    { apply Z.bits_inj'. intros i Hi.
      rewrite Z.land_spec, Z.bits_0, Z.pow2_bits_eqb by lia.
      destruct (Z.eqb_spec p i) as [-> | _];
        [rewrite Hb; reflexivity | apply andb_false_r]. }
    rewrite E. reflexivity.
Qed.

Lemma IsBitSet_testbit (T : UIntType) (this : BitMaskBase) (p : Z) :
  0 <= p < bit_width T -> IsBitSet T this p = Z.testbit (Mask this) p.
Proof.
  intros Hp. pose proof (bit_width_bounds T) as HB.
  unfold IsBitSet. rewrite cast_le_64 by lia.
  apply land_one_shl. lia.
Qed.

(** [m & 1] is the value of bit 0. *)
Lemma land_1_b2z (m : Z) : Z.land m 1 = Z.b2z (Z.testbit m 0).
Proof.
  change 1 with (Z.ones 1) at 1.
  rewrite Z.land_ones by lia. symmetry. apply Z.bit0_mod.
Qed.

Lemma positions_bounds (n p : Z) : In p (positions n) -> 0 <= p < n.
Proof.
  unfold positions. rewrite in_map_iff.
  intros [i [<- Hi]]. apply in_seq in Hi. lia.
Qed.

Lemma count_set_positions_ones (T : UIntType) (this : BitMaskBase) (n : Z) :
  n <= bit_width T ->
  count_set_positions T this n = ones_below (Mask this) (Z.to_nat n).
Proof.
  intros Hn. unfold count_set_positions, ones_below. do 2 f_equal.
  apply filter_ext_in. intros p Hp. apply positions_bounds in Hp.
  apply IsBitSet_testbit. lia.
Qed.

Lemma filter_map_length {A B : Type} (f : B -> bool) (g : A -> B) (l : list A) :
  length (filter f (map g l)) = length (filter (fun a => f (g a)) l).
Proof.
  induction l as [| a l IH]; simpl; [reflexivity |].
  destruct (f (g a)); simpl; now rewrite IH.
Qed.

Lemma ones_below_0 (m : Z) : ones_below m 0 = 0.
Proof. reflexivity. Qed.

(** One loop iteration consumes bit 0 and shifts the rest down. *)
Lemma ones_below_S (m : Z) (k : nat) :
  ones_below m (S k) = Z.land m 1 + ones_below (Z.shiftr m 1) k.
Proof.
  unfold ones_below. rewrite land_1_b2z.
  change (seq 0 (S k)) with (0%nat :: seq 1 k).
  rewrite <- seq_shift. cbn [map filter].
  rewrite map_map, !filter_map_length.
  assert (E : forall l,
             length (filter (fun a => Z.testbit m (Z.of_nat (S a))) l)
             = length (filter (fun a => Z.testbit (Z.shiftr m 1) (Z.of_nat a)) l)).
  { intros l. f_equal. apply filter_ext. intros a.
    rewrite Z.shiftr_spec by lia. f_equal. lia. }
  change (Z.of_nat 0) with 0.
  destruct (Z.testbit m 0); cbn [Z.b2z length];
    rewrite (filter_map_length (Z.testbit m) (fun x => Z.of_nat (S x))), E; lia.
Qed.

Lemma ones_below_bounds (m : Z) (k : nat) : 0 <= ones_below m k <= Z.of_nat k.
Proof.
  unfold ones_below. split; [lia |].
  apply inj_le.
  etransitivity; [apply filter_length_le |].
  now rewrite length_map, length_seq.
Qed.

Lemma ones_below_zero (k : nat) : ones_below 0 k = 0.
Proof.
  unfold ones_below.
  replace (filter (Z.testbit 0) (map Z.of_nat (seq 0 k))) with (@nil Z);
    [reflexivity |].
  symmetry. induction (map Z.of_nat (seq 0 k)) as [| a l IH]; simpl;
    [reflexivity |].
  now rewrite Z.bits_0.
Qed.

(** Bits at or above position [k] do not count when there are none. *)
Lemma ones_below_above (m : Z) (k d : nat) :
  0 <= m < 2 ^ Z.of_nat k -> ones_below m (k + d) = ones_below m k.
Proof.
  intros Hm. unfold ones_below.
  rewrite seq_app, map_app, filter_app, length_app.
  replace (filter (Z.testbit m) (map Z.of_nat (seq (0 + k) d))) with (@nil Z);
    [simpl; lia |].
  symmetry.
  assert (H : forall p, In p (map Z.of_nat (seq (0 + k) d)) ->
                        Z.testbit m p = false).
  { intros p Hp. apply in_map_iff in Hp. destruct Hp as [i [<- Hi]].
    apply in_seq in Hi.
    rewrite <- (Z.mod_small m (2 ^ Z.of_nat k)) by assumption.
    apply Z.mod_pow2_bits_high. lia. }
  induction (map Z.of_nat (seq (0 + k) d)) as [| a l IH]; simpl;
    [reflexivity |].
  rewrite (H a) by (now left). apply IH. intros p Hp. apply H. now right.
Qed.

(** ** The two scanning loops *)

Lemma shiftr_1_bounds (t : Z) (k : nat) :
  0 <= t < 2 ^ Z.of_nat (S k) -> 0 <= Z.shiftr t 1 < 2 ^ Z.of_nat k.
Proof.
  intros [H0 H1]. rewrite Z.shiftr_div_pow2 by lia. change (2 ^ 1) with 2.
  rewrite Nat2Z.inj_succ, Z.pow_succ_r in H1 by lia.
  split; [apply Z.div_pos; lia | apply Z.div_lt_upper_bound; lia].
Qed.

(** With at least as much fuel as the value has bits, the counting loop
    ends and has added the number of 1-bits to [count]. *)
Lemma CountSetBits_loop_spec (fuel : nat) :
  forall count tempMask,
    0 <= tempMask < 2 ^ Z.of_nat fuel ->
    CountSetBits_loop fuel count tempMask
    = Some (count + ones_below tempMask fuel).
Proof.
  induction fuel as [| fuel IH]; intros count t Ht.
  - assert (t = 0) as -> by (change (2 ^ Z.of_nat 0) with 1 in Ht; lia).
    simpl. now rewrite ones_below_0, Z.add_0_r.
  - cbn [CountSetBits_loop].
    destruct (Z.eqb_spec t 0) as [-> | Hne].
    + now rewrite ones_below_zero, Z.add_0_r.
    + rewrite IH by (now apply shiftr_1_bounds).
      rewrite ones_below_S. f_equal. lia.
Qed.

(** The bounded scan either stops at once, or ends with the smaller of the
    bound and the full count. *)
Lemma IsBitNSet_loop_min (fuel : nat) :
  forall pos count tempMask,
    0 <= tempMask < 2 ^ Z.of_nat fuel ->
    IsBitNSet_loop fuel pos count tempMask
    = Some (if count <? pos
            then Z.min pos (count + ones_below tempMask fuel)
            else count).
Proof.
  induction fuel as [| fuel IH]; intros pos count t Ht.
  - assert (t = 0) as -> by (change (2 ^ Z.of_nat 0) with 1 in Ht; lia).
    cbn [IsBitNSet_loop Z.eqb negb andb]. rewrite ones_below_0.
    destruct (Z.ltb_spec count pos); [f_equal; lia | reflexivity].
  - cbn [IsBitNSet_loop].
    destruct (Z.eqb_spec t 0) as [-> | Hne]; cbn [negb andb].
    + rewrite ones_below_zero.
      destruct (Z.ltb_spec count pos); [f_equal; lia | reflexivity].
    + destruct (Z.ltb_spec count pos) as [Hlt | Hge]; [| reflexivity].
      rewrite IH by (now apply shiftr_1_bounds).
      rewrite ones_below_S.
      pose proof (ones_below_bounds (Z.shiftr t 1) fuel) as Hb.
      assert (Hbit : Z.land t 1 = 0 \/ Z.land t 1 = 1)
        by (rewrite land_1_b2z; destruct (Z.testbit t 0); simpl; lia).
      destruct (Z.ltb_spec (count + Z.land t 1) pos); f_equal; lia.
Qed.

(** The bounded scan stops after [k] iterations, where [k] is the first
    iteration count at which the running count has reached [pos] or no
    1-bit remains. *)
Lemma IsBitNSet_loop_stop (fuel : nat) :
  forall pos count tempMask,
    0 <= tempMask < 2 ^ Z.of_nat fuel ->
    exists k : nat,
      (k <= fuel)%nat /\
      IsBitNSet_loop fuel pos count tempMask
      = Some (count + ones_below tempMask k) /\
      (pos <= count + ones_below tempMask k
       \/ Z.shiftr tempMask (Z.of_nat k) = 0) /\
      (forall j : nat, (j < k)%nat ->
         count + ones_below tempMask j < pos
         /\ Z.shiftr tempMask (Z.of_nat j) <> 0).
Proof.
  induction fuel as [| fuel IH]; intros pos count t Ht.
  - assert (t = 0) as -> by (change (2 ^ Z.of_nat 0) with 1 in Ht; lia).
    exists 0%nat. simpl. rewrite ones_below_0, Z.add_0_r.
    repeat split; [lia | now right | lia | lia].
  - cbn [IsBitNSet_loop].
    destruct (Z.eqb_spec t 0) as [-> | Hne]; cbn [negb andb].
    + exists 0%nat. rewrite ones_below_0, Z.add_0_r.
      repeat split; [lia | now right | lia | lia].
    + destruct (Z.ltb_spec count pos) as [Hlt | Hge].
      * destruct (IH pos (count + Z.land t 1) (Z.shiftr t 1)
                     (shiftr_1_bounds _ _ Ht))
          as [k [Hk [Hrun [Hstop Hbefore]]]].
        exists (S k). rewrite ones_below_S.
        rewrite Z.add_assoc. split; [lia |]. split; [exact Hrun |]. split.
        -- destruct Hstop as [Hs | Hs]; [now left | right].
           rewrite Z.shiftr_shiftr in Hs by lia.
           rewrite Nat2Z.inj_succ.
           now replace (Z.succ (Z.of_nat k)) with (1 + Z.of_nat k) by lia.
        -- intros [| j] Hj.
           ++ rewrite ones_below_0. simpl Z.of_nat. rewrite Z.shiftr_0_r. lia.
           ++ destruct (Hbefore j ltac:(lia)) as [Hc Hs].
              rewrite ones_below_S, Z.add_assoc. split; [exact Hc |].
              rewrite Z.shiftr_shiftr in Hs by lia.
              rewrite Nat2Z.inj_succ.
              now replace (Z.succ (Z.of_nat j)) with (1 + Z.of_nat j) by lia.
      * exists 0%nat. rewrite ones_below_0, Z.add_0_r.
        repeat split; [lia | now left | lia | lia].
Qed.

Lemma mask_ok_fuel (T : UIntType) (this : BitMaskBase) :
  mask_ok T this -> 0 <= Mask this < 2 ^ Z.of_nat (Z.to_nat (bit_width T)).
Proof.
  intros H. pose proof (bit_width_bounds T).
  now rewrite Z2Nat.id by lia.
Qed.

Lemma CountSetBits_ones (T : UIntType) (this : BitMaskBase) :
  mask_ok T this ->
  CountSetBits T this
  = Some (ones_below (Mask this) (Z.to_nat (bit_width T))).
Proof.
  intros H. unfold CountSetBits.
  now rewrite CountSetBits_loop_spec by (now apply mask_ok_fuel).
Qed.

Lemma IsBitNSet_run (T : UIntType) (O : OpKind) (this : BitMaskBase) (n : Z) :
  mask_ok T this ->
  IsBitNSet T O this n
  = Some (if 0 <? n
          then Z.min n (ones_below (Mask this) (Z.to_nat (bit_width T)))
          else 0).
Proof.
  intros Hok. unfold IsBitNSet.
  rewrite IsBitNSet_loop_min by (now apply mask_ok_fuel).
  pose proof (ones_below_bounds (Mask this) (Z.to_nat (bit_width T))) as Hc.
  pose proof (bit_width_bounds T) as HB.
  rewrite Z.add_0_l. f_equal. apply static_cast_OpType_le_64.
  destruct (Z.ltb_spec 0 n); lia.
Qed.

(** ** CountSetBits *)

(** C1 (amended): for every mask, [CountSetBits()] returns the number of
    positions [p] of the whole storage type, [0 <= p < bit_width MaskType],
    for which [IsBitSet(p)] is true; this is the number of such positions
    below [TMax] whenever the storage has no 1-bit at a position at or above
    [TMax] (always so when [TMax] is the width of the storage type). *)
Theorem CountSetBits_counts_storage_positions
        (T : UIntType) (this : BitMaskBase) :
  mask_ok T this ->
  CountSetBits T this = Some (count_set_positions T this (bit_width T))
  /\ (forall TMax,
         TMax_fits T TMax -> Mask this < 2 ^ TMax ->
         CountSetBits T this = Some (count_set_positions T this TMax)).
Proof.
  intros Hok. rewrite (CountSetBits_ones T this Hok). split.
  - now rewrite count_set_positions_ones by lia.
  - intros W [HW0 HWB] Hlt. destruct Hok as [Hm0 _].
    rewrite count_set_positions_ones by lia. f_equal.
    replace (Z.to_nat (bit_width T))
      with (Z.to_nat W + Z.to_nat (bit_width T - W))%nat by lia.
    apply ones_below_above. now rewrite Z2Nat.id by lia.
Qed.

Lemma CountSetBits_counts_storage_positions_witness :
  CountSetBits uint8_t bitmask = Some 2
  /\ CountSetBits uint16_t enumMask
     = Some (count_set_positions uint16_t enumMask Enummask_TMax).
Proof.
  split.
  - apply (proj1 (CountSetBits_counts_storage_positions
                    uint8_t bitmask ltac:(by_evaluation))).
  - apply (proj2 (CountSetBits_counts_storage_positions
                    uint16_t enumMask ltac:(by_evaluation)));
      by_evaluation.
Defined.

(** C1 as stated fails: in [Enummask<MyEnum, uint16_t>] ([TMax = 4]) the mask
    with [Value1] set, shifted left by 4, has one 1-bit in storage and no
    position below [TMax] for which [IsBitSet] is true. *)
Lemma CountSetBits_counts_above_TMax :
  mask_ok uint16_t enumMask_shifted
  /\ TMax_fits uint16_t Enummask_TMax
  /\ CountSetBits uint16_t enumMask_shifted = Some 1
  /\ count_set_positions uint16_t enumMask_shifted Enummask_TMax = 0
  /\ CountSetBits uint16_t enumMask_shifted
     <> Some (count_set_positions uint16_t enumMask_shifted Enummask_TMax).
Proof. by_evaluation. Qed.

(** ** IsBitNSet *)

(** C9: [IsBitNSet(n)] returns 0 for every [n <= 0], the loop body never
    being entered (the loop ends without any iteration allowed), and for
    every [n >= 0] it returns the minimum of [n] and [CountSetBits()]. *)
Theorem IsBitNSet_min_CountSetBits
        (T : UIntType) (O : OpKind) (this : BitMaskBase) :
  mask_ok T this ->
  (forall n, n <= 0 ->
     IsBitNSet T O this n = Some 0
     /\ IsBitNSet_loop 0 n 0 (Mask this) = Some 0)
  /\ (forall n, 0 <= n ->
        exists c, CountSetBits T this = Some c
                  /\ IsBitNSet T O this n = Some (Z.min n c)).
Proof.
  intros Hok.
  pose proof (ones_below_bounds (Mask this) (Z.to_nat (bit_width T))) as Hc.
  split.
  - intros n Hn. split.
    + rewrite IsBitNSet_run by assumption.
      destruct (Z.ltb_spec 0 n); [lia | reflexivity].
    + cbn [IsBitNSet_loop].
      destruct (Z.ltb_spec 0 n); [lia |]. now rewrite andb_false_r.
  - intros n Hn. eexists. split; [apply CountSetBits_ones, Hok |].
    rewrite IsBitNSet_run by assumption. f_equal.
    destruct (Z.ltb_spec 0 n); lia.
Qed.

Lemma IsBitNSet_min_CountSetBits_witness :
  (IsBitNSet uint8_t (OpIntegral uint8_t) bitmask (-3) = Some 0
   /\ IsBitNSet_loop 0 (-3) 0 (Mask bitmask) = Some 0)
  /\ exists c, CountSetBits uint8_t bitmask = Some c
               /\ IsBitNSet uint8_t (OpIntegral uint8_t) bitmask 5
                  = Some (Z.min 5 c).
Proof.
  split.
  - apply (proj1 (IsBitNSet_min_CountSetBits
                    uint8_t (OpIntegral uint8_t) bitmask
                    ltac:(by_evaluation))).
    lia.
  - apply (proj2 (IsBitNSet_min_CountSetBits
                    uint8_t (OpIntegral uint8_t) bitmask
                    ltac:(by_evaluation))).
    lia.
Defined.

(** C3: [IsBitNSet(n)] scans from the least significant bit with a running
    count of the 1-bits seen.  It stops after [k] positions, where [k] is the
    first point at which the running count has reached [n] or no 1-bit
    remains, and returns the running count at that point: the number of
    positions below [k] for which [IsBitSet] is true.  When the mask has
    fewer than [n] set bits the result is that smaller number. *)
Theorem IsBitNSet_scans_until_n
        (T : UIntType) (O : OpKind) (this : BitMaskBase) (n : Z) :
  mask_ok T this ->
  exists k : Z,
    0 <= k <= bit_width T
    /\ IsBitNSet T O this n = Some (count_set_positions T this k)
    /\ (n <= count_set_positions T this k \/ Z.shiftr (Mask this) k = 0)
    /\ (forall j, 0 <= j < k ->
          count_set_positions T this j < n /\ Z.shiftr (Mask this) j <> 0)
    /\ (forall c, CountSetBits T this = Some c -> c < n ->
          IsBitNSet T O this n = Some c /\ count_set_positions T this k < n).
Proof.
  intros Hok.
  pose proof (bit_width_bounds T) as HB.
  destruct (IsBitNSet_loop_stop (Z.to_nat (bit_width T)) n 0 (Mask this)
                                (mask_ok_fuel T this Hok))
    as [k [Hk [Hrun [Hstop Hbefore]]]].
  rewrite Z.add_0_l in Hrun, Hstop.
  pose proof (ones_below_bounds (Mask this) k) as Hkb.
  assert (Hcnt : forall j : nat,
             (j <= Z.to_nat (bit_width T))%nat ->
             count_set_positions T this (Z.of_nat j)
             = ones_below (Mask this) j).
  { intros j Hj. rewrite count_set_positions_ones by lia.
    now rewrite Nat2Z.id. }
  assert (Hres : IsBitNSet T O this n
                 = Some (count_set_positions T this (Z.of_nat k))).
  { unfold IsBitNSet. rewrite Hrun, Hcnt by lia.
    now rewrite static_cast_OpType_le_64 by lia. }
  exists (Z.of_nat k). rewrite Hcnt in * by lia.
  split; [lia |]. split; [exact Hres |]. split; [exact Hstop |]. split.
  - intros j Hj. destruct (Hbefore (Z.to_nat j) ltac:(lia)) as [Hc Hs].
    rewrite Z.add_0_l, Z2Nat.id in * by lia.
    rewrite <- (Z2Nat.id j), Hcnt by lia. rewrite Z2Nat.id by lia.
    now split.
  - intros c Hc Hlt.
    rewrite CountSetBits_ones in Hc by assumption. injection Hc as Hc.
    assert (Hfull : IsBitNSet T O this n = Some c).
    { rewrite IsBitNSet_run, Hc by assumption.
      pose proof (ones_below_bounds (Mask this) (Z.to_nat (bit_width T))).
      destruct (Z.ltb_spec 0 n); f_equal; lia. }
    split; [exact Hfull |].
    rewrite Hfull in Hres. injection Hres as ->. exact Hlt.
Qed.

Lemma IsBitNSet_scans_until_n_witness :
  exists k : Z,
    0 <= k <= bit_width uint8_t
    /\ IsBitNSet uint8_t (OpIntegral uint8_t) bitmask 1
       = Some (count_set_positions uint8_t bitmask k)
    /\ (1 <= count_set_positions uint8_t bitmask k
        \/ Z.shiftr (Mask bitmask) k = 0)
    /\ (forall j, 0 <= j < k ->
          count_set_positions uint8_t bitmask j < 1
          /\ Z.shiftr (Mask bitmask) j <> 0)
    /\ (forall c, CountSetBits uint8_t bitmask = Some c -> c < 1 ->
          IsBitNSet uint8_t (OpIntegral uint8_t) bitmask 1 = Some c
          /\ count_set_positions uint8_t bitmask k < 1).
Proof.
  apply (IsBitNSet_scans_until_n uint8_t (OpIntegral uint8_t) bitmask 1).
  by_evaluation.
Defined.

(** On [00100100] the scan for one set bit stops after three positions. *)
Example IsBitNSet_stops_at_first_set_bit :
  IsBitNSet uint8_t (OpIntegral uint8_t) bitmask 1 = Some 1
  /\ IsBitNSet_loop 3 1 0 (Mask bitmask) = Some 1
  /\ IsBitNSet_loop 2 1 0 (Mask bitmask) = None.
Proof. by_evaluation. Qed.

Example IsBitNSet_fewer_set_bits :
  IsBitNSet uint8_t (OpIntegral uint8_t) bitmask 5 = Some 2.
Proof. reflexivity. Qed.

(** ** toBinaryString *)

Lemma append_assoc (a b c : string) :
  ((a ++ b) ++ c = a ++ (b ++ c))%string.
Proof. induction a as [| x a IH]; simpl; [reflexivity | now rewrite IH]. Qed.

Lemma append_empty_r (a : string) : (a ++ EmptyString)%string = a.
Proof. induction a as [| x a IH]; simpl; [reflexivity | now rewrite IH]. Qed.

Lemma toBinaryString_loop_msb_first (value : Z) (n : nat) :
  forall result,
    toBinaryString_loop value n result = (result ++ msb_first value n)%string.
Proof.
  induction n as [| i IH]; intros result; simpl.
  - now rewrite append_empty_r.
  - rewrite IH, append_assoc. reflexivity.
Qed.

Lemma toBinaryString_msb_first (TMax : Z) (this : BitMaskBase) :
  toBinaryString TMax this = msb_first (Mask this) (Z.to_nat TMax).
Proof. unfold toBinaryString. now rewrite toBinaryString_loop_msb_first. Qed.

Lemma msb_first_length (value : Z) (n : nat) :
  String.length (msb_first value n) = n.
Proof. induction n as [| i IH]; simpl; [reflexivity | now rewrite IH]. Qed.

Lemma msb_first_get (value : Z) (n : nat) :
  forall i, (i < n)%nat ->
    String.get i (msb_first value n) = Some (bit_char value (n - 1 - i)).
Proof.
  induction n as [| n IH]; intros i Hi; [lia |].
  destruct i as [| i]; cbn [msb_first String.get].
  - do 2 f_equal. lia.
  - rewrite IH by lia. do 2 f_equal. lia.
Qed.

Lemma msb_first_ext (v w : Z) (n : nat) :
  (forall p, 0 <= p < Z.of_nat n -> Z.testbit v p = Z.testbit w p) ->
  msb_first v n = msb_first w n.
Proof.
  induction n as [| n IH]; intros H; simpl; [reflexivity |].
  rewrite IH by (intros p Hp; apply H; lia).
  f_equal. unfold bit_char.
  now rewrite !land_1_b2z, !Z.shiftr_spec, !Z.add_0_l, (H (Z.of_nat n)) by lia.
Qed.

Lemma bit_char_testbit (value : Z) (i : nat) :
  bit_char value i
  = if Z.testbit value (Z.of_nat i) then "1"%char else "0"%char.
Proof.
  unfold bit_char. rewrite land_1_b2z, Z.shiftr_spec, Z.add_0_l by lia.
  now destruct (Z.testbit value (Z.of_nat i)).
Qed.

(** C4: [toBinaryString()] has exactly [TMax] characters; the character at
    index [i], counted from the most significant end, is ['1'] if bit
    [TMax - 1 - i] of the storage is set and ['0'] otherwise; storage bits at
    positions [TMax] and above do not appear: two masks that agree below
    [TMax] have the same string. *)
Theorem toBinaryString_msb_first_TMax_chars
        (T : UIntType) (TMax : Z) (this : BitMaskBase) :
  TMax_fits T TMax ->
  Z.of_nat (String.length (toBinaryString TMax this)) = TMax
  /\ (forall i : nat,
         Z.of_nat i < TMax ->
         String.get i (toBinaryString TMax this)
         = Some (if IsBitSet T this (TMax - 1 - Z.of_nat i)
                 then "1"%char else "0"%char))
  /\ (forall other : BitMaskBase,
         (forall p, 0 <= p < TMax -> IsBitSet T other p = IsBitSet T this p) ->
         toBinaryString TMax other = toBinaryString TMax this).
Proof.
  intros [H0 HB]. rewrite toBinaryString_msb_first. split; [| split].
  - rewrite msb_first_length. lia.
  - intros i Hi. rewrite msb_first_get by lia.
    rewrite bit_char_testbit, IsBitSet_testbit by lia.
    now replace (Z.of_nat (Z.to_nat TMax - 1 - i)) with (TMax - 1 - Z.of_nat i)
      by lia.
  - intros other Hsame. rewrite toBinaryString_msb_first.
    apply msb_first_ext. intros p Hp.
    rewrite <- !(IsBitSet_testbit T) by lia. apply Hsame. lia.
Qed.

Lemma toBinaryString_msb_first_TMax_chars_witness :
  Z.of_nat (String.length (toBinaryString 8 bitmask)) = 8
  /\ (forall i : nat,
         Z.of_nat i < 8 ->
         String.get i (toBinaryString 8 bitmask)
         = Some (if IsBitSet uint8_t bitmask (8 - 1 - Z.of_nat i)
                 then "1"%char else "0"%char))
  /\ (forall other : BitMaskBase,
         (forall p, 0 <= p < 8 ->
                    IsBitSet uint8_t other p = IsBitSet uint8_t bitmask p) ->
         toBinaryString 8 other = toBinaryString 8 bitmask).
Proof.
  apply (toBinaryString_msb_first_TMax_chars uint8_t 8 bitmask).
  by_evaluation.
Defined.

Example toBinaryString_drops_high_bits :
  toBinaryString Enummask_TMax enumMask = "0011"%string
  /\ toBinaryString Enummask_TMax enumMask_shifted = "0000"%string.
Proof. split; reflexivity. Qed.

(** ** AllBitsSet *)

(** C2 (amended): [AllBitsSet()] is true exactly when the storage is the
    all-ones pattern of the storage type's full width; so when [TMax] is
    smaller than that width it is false for every mask whose storage has no
    1-bit at or above [TMax], in particular for the mask with exactly the
    [TMax] logical bits set. *)
Theorem AllBitsSet_full_storage_width
        (T : UIntType) (TMax : Z) (this : BitMaskBase) :
  (AllBitsSet T this = true <-> Mask this = 2 ^ bit_width T - 1)
  /\ (TMax < bit_width T -> Mask this < 2 ^ TMax -> AllBitsSet T this = false)
  /\ (TMax < bit_width T -> AllBitsSet T {| Mask := 2 ^ TMax - 1 |} = false).
Proof.
  unfold AllBitsSet, numeric_limits_max.
  assert (Hlow : forall m, TMax < bit_width T -> m < 2 ^ TMax ->
                           (m =? 2 ^ bit_width T - 1) = false).
  { intros m HW Hm. apply Z.eqb_neq.
    pose proof (bit_width_bounds T) as HB.
    assert (2 ^ TMax <= 2 ^ (bit_width T - 1))
      by (apply Z.pow_le_mono_r; lia).
    assert (2 ^ bit_width T = 2 * 2 ^ (bit_width T - 1))
      by (rewrite <- Z.pow_succ_r by lia; f_equal; lia).
    assert (0 < 2 ^ (bit_width T - 1)) by (apply Z.pow_pos_nonneg; lia).
    lia. }
  split; [apply Z.eqb_eq |]. split.
  - apply Hlow.
  - intros HW. apply Hlow; [exact HW | simpl; lia].
Qed.

Lemma AllBitsSet_full_storage_width_witness :
  AllBitsSet uint16_t enumMask = false
  /\ AllBitsSet uint16_t {| Mask := 2 ^ Enummask_TMax - 1 |} = false.
Proof.
  split.
  - apply (proj1 (proj2 (AllBitsSet_full_storage_width
                           uint16_t Enummask_TMax enumMask)));
      by_evaluation.
  - apply (proj2 (proj2 (AllBitsSet_full_storage_width
                           uint16_t Enummask_TMax enumMask))).
    by_evaluation.
Defined.

(** C2 as stated fails: in [Enummask<MyEnum, uint16_t>] ([TMax = 4], storage
    of 16 bits) the complement of the empty mask has every logical bit set
    and [AllBitsSet()] returns true. *)
Lemma AllBitsSet_true_with_TMax_below_width :
  Enummask_TMax < bit_width uint16_t
  /\ mask_ok uint16_t enumMask_complement
  /\ forallb (IsBitSet uint16_t enumMask_complement)
             (positions Enummask_TMax) = true
  /\ AllBitsSet uint16_t enumMask_complement = true.
Proof. by_evaluation. Qed.

(** ** ClearBits *)

(** C5: the body of [ClearBits] names [clearBit], which is not declared (the
    member is [ClearBit]), so no call of [ClearBits] yields a mask; the
    sibling [SetBits] folds [SetBit] over its pack.  At the mask with bits 2
    and 5 set, clearing both positions one by one gives the empty mask. *)
Theorem ClearBits_does_not_resolve :
  (forall (T : UIntType) (this : BitMaskBase) (args : list Z),
      ClearBits T this args = None)
  /\ ClearBits uint8_t bitmask [2; 5] = None
  /\ fold_left (ClearBit uint8_t) [2; 5] bitmask = BitMaskBase_default
  /\ SetBits uint8_t (OpIntegral uint8_t) BitMaskBase_default [2; 5]
     = bitmask.
Proof. repeat split. Qed.

(** ** IsAnyBitSetInRange *)

(** C6: the body of [IsAnyBitSetInRange] applies [&] to [Mask] and the other
    object itself, for which no overload exists, so no call yields a result;
    at [bitmask1] of [main] against itself the bitwise AND of the storages
    is non-zero. *)
Theorem IsAnyBitSetInRange_has_no_overload :
  (forall a b : BitMaskBase, IsAnyBitSetInRange a b = None)
  /\ IsAnyBitSetInRange bitmask1 bitmask1 = None
  /\ negb (Z.land (Mask bitmask1) (Mask bitmask1) =? 0) = true.
Proof. repeat split. Qed.

(** ** The static width check *)

(** C7: the [static_assert] evaluates [IsBitValidPos(TMax)], which compares
    [TMax] with itself: it holds for every non-negative [TMax], whatever the
    storage type, and so accepts [BitMaskBase<uint8_t, uint8_t, 9>]. *)
Theorem static_assert_accepts_oversized_TMax :
  (forall TMax : Z, static_assert_TMax TMax = (0 <=? TMax))
  /\ static_assert_TMax 9 = true
  /\ bit_width uint8_t < 9.
Proof.
  split; [| split; reflexivity].
  intros TMax. unfold static_assert_TMax, IsBitValidPos.
  rewrite Z.leb_refl, andb_true_r, Z.geb_leb. reflexivity.
Qed.

(** ** Combining masks *)

Lemma cast_mask_ok (T : UIntType) (v : Z) :
  mask_ok T {| Mask := static_cast_MaskType T v |}.
Proof.
  unfold mask_ok, static_cast_MaskType. simpl.
  apply Z.mod_pos_bound. pose proof (pow2_bit_width_large T). lia.
Qed.

(** The bitwise OR of two storage values is a storage value. *)
Lemma cast_lor (T : UIntType) (a b : BitMaskBase) :
  mask_ok T a -> mask_ok T b ->
  static_cast_MaskType T (Z.lor (Mask a) (Mask b)) = Z.lor (Mask a) (Mask b).
Proof.
  intros Ha Hb. apply Z.bits_inj'. intros i Hi.
  rewrite cast_testbit, Z.lor_spec by assumption.
  destruct (Z.ltb_spec i (bit_width T)) as [Hlt | Hge]; [reflexivity |].
  now rewrite (mask_testbit_high T a), (mask_testbit_high T b).
Qed.

Lemma operator_plus_Mask (T : UIntType) (a b : BitMaskBase) :
  mask_ok T a -> mask_ok T b ->
  Mask (operator_plus T a b) = Z.lor (Mask a) (Mask b).
Proof. intros Ha Hb. unfold operator_plus. simpl. now apply cast_lor. Qed.

Lemma operator_plus_mask_ok (T : UIntType) (a b : BitMaskBase) :
  mask_ok T (operator_plus T a b).
Proof. apply cast_mask_ok. Qed.

(** Every mutator and operator leaves a value of [MaskType] in [Mask], so
    [mask_ok] holds of every mask built from the default constructor. *)
Lemma mutators_keep_mask_ok (T : UIntType) (this other : BitMaskBase) (p : Z) :
  mask_ok T BitMaskBase_default
  /\ mask_ok T (ResetAllBits this)
  /\ mask_ok T (SetBit T this p)
  /\ mask_ok T (ClearBit T this p)
  /\ mask_ok T (ToggleBit T this p)
  /\ mask_ok T (operator_plus T this other)
  /\ mask_ok T (operator_minus T this other)
  /\ mask_ok T (operator_xor T this other)
  /\ mask_ok T (operator_compl T this)
  /\ mask_ok T (operator_shl T this p)
  /\ mask_ok T (operator_shr T this p).
Proof.
  assert (H0 : mask_ok T {| Mask := 0 |}).
  { unfold mask_ok. simpl. pose proof (pow2_bit_width_large T). lia. }
  repeat split; try apply H0; apply cast_mask_ok.
Qed.

Lemma SetBits_keeps_mask_ok (T : UIntType) (O : OpKind) (bits : list Z) :
  forall this, mask_ok T this -> mask_ok T (SetBits T O this bits).
Proof.
  unfold SetBits.
  induction bits as [| b bits IH]; intros this Hok; simpl; [exact Hok |].
  apply IH, cast_mask_ok.
Qed.

Lemma variadic_mask_ok (T : UIntType) (O : OpKind) (bits : list Z) :
  mask_ok T (BitMaskBase_variadic T O bits).
Proof.
  unfold BitMaskBase_variadic.
  assert (H : forall m, mask_ok T m ->
                        mask_ok T (fold_left
                                     (fun m b =>
                                        SetBits T O m [static_cast_OpType O b])
                                     bits m)).
  { induction bits as [| b bits IH]; intros m Hm; simpl; [exact Hm |].
    apply IH. apply cast_mask_ok. }
  apply H. apply (mutators_keep_mask_ok T {| Mask := 0 |} {| Mask := 0 |} 0).
Qed.

(** C8: on masks of one width, [operator+] is commutative, associative and
    idempotent, and the zero mask is its identity, all up to [operator==];
    [operator+=] leaves in the left operand what [operator+] returns. *)
Theorem operator_plus_laws (T : UIntType) (a b c : BitMaskBase) :
  mask_ok T a -> mask_ok T b -> mask_ok T c ->
  operator_eq (operator_plus T a b) (operator_plus T b a) = true
  /\ operator_eq (operator_plus T (operator_plus T a b) c)
                 (operator_plus T a (operator_plus T b c)) = true
  /\ operator_eq (operator_plus T a a) a = true
  /\ operator_eq (operator_plus T a BitMaskBase_default) a = true
  /\ operator_plus_assign T a b = operator_plus T a b.
Proof.
  intros Ha Hb Hc. unfold operator_eq.
  assert (H0 : mask_ok T BitMaskBase_default).
  { unfold mask_ok, BitMaskBase_default. simpl.
    pose proof (pow2_bit_width_large T). lia. }
  pose proof (operator_plus_mask_ok T a b) as Hab.
  pose proof (operator_plus_mask_ok T b c) as Hbc.
  rewrite !operator_plus_Mask by assumption.
  repeat split; try apply Z.eqb_eq.
  - apply Z.lor_comm.
  - symmetry. apply Z.lor_assoc.
  - apply Z.lor_diag.
  - apply Z.lor_0_r.
Qed.

Lemma operator_plus_laws_witness :
  operator_eq (operator_plus uint8_t bitmask1 bitmask3)
              (operator_plus uint8_t bitmask3 bitmask1) = true
  /\ operator_eq
       (operator_plus uint8_t (operator_plus uint8_t bitmask1 bitmask3)
                      bitmask)
       (operator_plus uint8_t bitmask1
                      (operator_plus uint8_t bitmask3 bitmask)) = true
  /\ operator_eq (operator_plus uint8_t bitmask1 bitmask1) bitmask1 = true
  /\ operator_eq (operator_plus uint8_t bitmask1 BitMaskBase_default)
                 bitmask1 = true
  /\ operator_plus_assign uint8_t bitmask1 bitmask3
     = operator_plus uint8_t bitmask1 bitmask3.
Proof.
  apply (operator_plus_laws uint8_t bitmask1 bitmask3 bitmask);
    by_evaluation.
Defined.

Example main_combined :
  toBinaryString (BitMask_TMax uint8_t)
    (operator_plus uint8_t bitmask1 bitmask3)
  = "00001111"%string.
Proof. reflexivity. Qed.

(** ** Single-bit mutators *)

Lemma one_shl_testbit (p q : Z) :
  0 <= p -> 0 <= q -> q <> p -> Z.testbit (Z.shiftl 1 p) q = false.
Proof.
  intros Hp Hq Hne. rewrite Z.shiftl_1_l, Z.pow2_bits_eqb by assumption.
  apply Z.eqb_neq. congruence.
Qed.

(** C10: for distinct valid positions [p] and [q], each of [SetBit(p)],
    [ClearBit(p)] and [ToggleBit(p)] leaves [IsBitSet(q)] as it was. *)
Theorem single_bit_mutators_frame
        (T : UIntType) (TMax : Z) (this : BitMaskBase) (p q : Z) :
  TMax_fits T TMax ->
  0 <= p < TMax -> 0 <= q < TMax -> q <> p ->
  IsBitSet T (SetBit T this p) q = IsBitSet T this q
  /\ IsBitSet T (ClearBit T this p) q = IsBitSet T this q
  /\ IsBitSet T (ToggleBit T this p) q = IsBitSet T this q.
Proof.
  intros [_ HB] Hp Hq Hne.
  pose proof (bit_width_bounds T) as HW.
  rewrite !IsBitSet_testbit by lia.
  unfold SetBit, ClearBit, ToggleBit. cbn [Mask].
  rewrite !cast_testbit by lia.
  rewrite (cast_le_64 T p) by lia.
  rewrite Z.lor_spec, Z.land_spec, Z.lxor_spec, Z.lnot_spec by lia.
  rewrite (one_shl_testbit p q) by lia.
  destruct (Z.ltb_spec q (bit_width T)); [| lia].
  cbn [andb negb].
  now rewrite orb_false_r, andb_true_r, xorb_false_r.
Qed.

Lemma single_bit_mutators_frame_witness :
  IsBitSet uint8_t (SetBit uint8_t bitmask 2) 5 = IsBitSet uint8_t bitmask 5
  /\ IsBitSet uint8_t (ClearBit uint8_t bitmask 2) 5
     = IsBitSet uint8_t bitmask 5
  /\ IsBitSet uint8_t (ToggleBit uint8_t bitmask 2) 5
     = IsBitSet uint8_t bitmask 5.
Proof.
  apply (single_bit_mutators_frame uint8_t (BitMask_TMax uint8_t)
                                   bitmask 2 5);
    by_evaluation.
Defined.

Example main_cleared :
  toBinaryString (BitMask_TMax uint8_t)
    (ClearBit uint8_t bitmask 2) = "00100000"%string.
Proof. reflexivity. Qed.

(** * Further properties of the class *)

(** ** Bit-level view of the operations *)

(** Two values of [MaskType] with the same bits are the same mask. *)
Lemma mask_ext (T : UIntType) (a b : BitMaskBase) :
  mask_ok T a -> mask_ok T b ->
  (forall i, 0 <= i < bit_width T ->
             Z.testbit (Mask a) i = Z.testbit (Mask b) i) ->
  a = b.
Proof.
  intros Ha Hb H.
  assert (E : Mask a = Mask b).
  { apply Z.bits_inj'. intros i Hi.
    destruct (Z.ltb_spec i (bit_width T)) as [Hlt | Hge].
    - apply H. lia.
    - now rewrite (mask_testbit_high T a), (mask_testbit_high T b). }
  destruct a, b. simpl in E. now subst.
Qed.

Section BitView.

Variable T : UIntType.
Variables i p : Z.
Hypothesis Hi : 0 <= i < bit_width T.
Hypothesis Hp : 0 <= p < bit_width T.

Lemma one_shl_cast_testbit :
  Z.testbit (Z.shiftl 1 (static_cast_MaskType T p)) i = (i =? p).
Proof.
  pose proof (bit_width_bounds T).
  rewrite cast_le_64, Z.shiftl_1_l, Z.pow2_bits_eqb by lia.
  apply Z.eqb_sym.
Qed.

Lemma low_bit (v : Z) :
  Z.testbit (static_cast_MaskType T v) i = Z.testbit v i.
Proof.
  rewrite cast_testbit by lia.
  destruct (Z.ltb_spec i (bit_width T)); [reflexivity | lia].
Qed.

Lemma SetBit_testbit (this : BitMaskBase) :
  Z.testbit (Mask (SetBit T this p)) i = Z.testbit (Mask this) i || (i =? p).
Proof.
  unfold SetBit. cbn [Mask].
  now rewrite low_bit, Z.lor_spec, one_shl_cast_testbit.
Qed.

Lemma ClearBit_testbit (this : BitMaskBase) :
  Z.testbit (Mask (ClearBit T this p)) i
  = Z.testbit (Mask this) i && negb (i =? p).
Proof.
  unfold ClearBit. cbn [Mask].
  now rewrite low_bit, Z.land_spec, Z.lnot_spec, one_shl_cast_testbit by lia.
Qed.

Lemma ToggleBit_testbit (this : BitMaskBase) :
  Z.testbit (Mask (ToggleBit T this p)) i
  = xorb (Z.testbit (Mask this) i) (i =? p).
Proof.
  unfold ToggleBit. cbn [Mask].
  now rewrite low_bit, Z.lxor_spec, one_shl_cast_testbit.
Qed.

Lemma operator_plus_testbit (a b : BitMaskBase) :
  Z.testbit (Mask (operator_plus T a b)) i
  = Z.testbit (Mask a) i || Z.testbit (Mask b) i.
Proof. unfold operator_plus. cbn [Mask]. now rewrite low_bit, Z.lor_spec. Qed.

Lemma operator_minus_testbit (a b : BitMaskBase) :
  Z.testbit (Mask (operator_minus T a b)) i
  = Z.testbit (Mask a) i && negb (Z.testbit (Mask b) i).
Proof.
  unfold operator_minus. cbn [Mask].
  now rewrite low_bit, Z.land_spec, Z.lnot_spec by lia.
Qed.

Lemma operator_xor_testbit (a b : BitMaskBase) :
  Z.testbit (Mask (operator_xor T a b)) i
  = xorb (Z.testbit (Mask a) i) (Z.testbit (Mask b) i).
Proof. unfold operator_xor. cbn [Mask]. now rewrite low_bit, Z.lxor_spec. Qed.

Lemma operator_compl_testbit (a : BitMaskBase) :
  Z.testbit (Mask (operator_compl T a)) i = negb (Z.testbit (Mask a) i).
Proof.
  unfold operator_compl. cbn [Mask]. now rewrite low_bit, Z.lnot_spec by lia.
Qed.

End BitView.

Lemma BitMaskBase_default_testbit (i : Z) :
  Z.testbit (Mask BitMaskBase_default) i = false.
Proof. apply Z.bits_0. Qed.

(** Rewrites the bits of every operation, then decides the boolean goal. *)
Ltac bit_view :=
  rewrite ?SetBit_testbit, ?ClearBit_testbit, ?ToggleBit_testbit,
    ?operator_plus_testbit, ?operator_minus_testbit, ?operator_xor_testbit,
    ?operator_compl_testbit, ?BitMaskBase_default_testbit by lia.

Ltac bool_cases :=
  repeat match goal with
         | |- context [Z.testbit ?m ?i] => destruct (Z.testbit m i)
         | |- context [?a =? ?b] => destruct (Z.eqb_spec a b)
         end;
  cbn [andb orb negb xorb]; try reflexivity; try congruence; try lia.

(** Equality of two masks produced by operations, bit by bit. *)
Ltac mask_eq T :=
  apply (mask_ext T); [first [assumption | apply cast_mask_ok]
                      | first [assumption | apply cast_mask_ok]
                      | intros ?i ?Hi; repeat bit_view; bool_cases].

(** ** Single-bit mutators *)

(** X1: [SetBit(p)] makes [IsBitSet(p)] true, [ClearBit(p)] makes it false and
    [ToggleBit(p)] negates it. *)
Theorem mutators_own_bit (T : UIntType) (this : BitMaskBase) (p : Z) :
  0 <= p < bit_width T ->
  IsBitSet T (SetBit T this p) p = true
  /\ IsBitSet T (ClearBit T this p) p = false
  /\ IsBitSet T (ToggleBit T this p) p = negb (IsBitSet T this p).
Proof.
  intros Hp. rewrite !IsBitSet_testbit by assumption.
  bit_view. rewrite Z.eqb_refl.
  destruct (Z.testbit (Mask this) p); repeat split.
Qed.

Lemma mutators_own_bit_witness :
  IsBitSet uint8_t (SetBit uint8_t bitmask 3) 3 = true
  /\ IsBitSet uint8_t (ClearBit uint8_t bitmask 3) 3 = false
  /\ IsBitSet uint8_t (ToggleBit uint8_t bitmask 3) 3
     = negb (IsBitSet uint8_t bitmask 3).
Proof. apply (mutators_own_bit uint8_t bitmask 3). by_evaluation. Defined.

(** X2: Toggling a bit twice gives the mask back; setting or clearing a bit a
    second time changes nothing. *)
Theorem ToggleBit_involutive_SetBit_ClearBit_idempotent
        (T : UIntType) (this : BitMaskBase) (p : Z) :
  mask_ok T this -> 0 <= p < bit_width T ->
  ToggleBit T (ToggleBit T this p) p = this
  /\ SetBit T (SetBit T this p) p = SetBit T this p
  /\ ClearBit T (ClearBit T this p) p = ClearBit T this p.
Proof.
  intros Hok Hp. repeat split; mask_eq T.
Qed.

Lemma ToggleBit_involutive_SetBit_ClearBit_idempotent_witness :
  ToggleBit uint8_t (ToggleBit uint8_t bitmask 2) 2 = bitmask
  /\ SetBit uint8_t (SetBit uint8_t bitmask 2) 2 = SetBit uint8_t bitmask 2
  /\ ClearBit uint8_t (ClearBit uint8_t bitmask 2) 2
     = ClearBit uint8_t bitmask 2.
Proof.
  apply (ToggleBit_involutive_SetBit_ClearBit_idempotent uint8_t bitmask 2);
    by_evaluation.
Defined.

(** X3: [ClearBit(p)] undoes [SetBit(p)] on a mask whose bit [p] was clear, and
    [SetBit(p)] undoes [ClearBit(p)] on a mask whose bit [p] was set; in
    either order the later call decides the bit. *)
Theorem SetBit_ClearBit_round_trip
        (T : UIntType) (this : BitMaskBase) (p : Z) :
  mask_ok T this -> 0 <= p < bit_width T ->
  (IsBitSet T this p = false -> ClearBit T (SetBit T this p) p = this)
  /\ (IsBitSet T this p = true -> SetBit T (ClearBit T this p) p = this)
  /\ ClearBit T (SetBit T this p) p = ClearBit T this p
  /\ SetBit T (ClearBit T this p) p = SetBit T this p.
Proof.
  intros Hok Hp. rewrite IsBitSet_testbit by assumption.
  repeat split; try intros Hb; apply (mask_ext T);
    try assumption; try apply cast_mask_ok;
    intros i Hi; repeat bit_view;
    destruct (Z.eqb_spec i p) as [-> | Hne];
    try rewrite Hb; bool_cases.
Qed.

Lemma SetBit_ClearBit_round_trip_witness :
  ClearBit uint8_t (SetBit uint8_t bitmask 3) 3 = bitmask
  /\ SetBit uint8_t (ClearBit uint8_t bitmask 2) 2 = bitmask.
Proof.
  split.
  - apply (proj1 (SetBit_ClearBit_round_trip uint8_t bitmask 3
                    ltac:(by_evaluation) ltac:(by_evaluation))).
    by_evaluation.
  - apply (proj1 (proj2 (SetBit_ClearBit_round_trip uint8_t bitmask 2
                           ltac:(by_evaluation) ltac:(by_evaluation)))).
    by_evaluation.
Defined.

(** X4: Mutators addressed at two different positions commute. *)
Theorem mutators_commute (T : UIntType) (this : BitMaskBase) (p q : Z) :
  0 <= p < bit_width T -> 0 <= q < bit_width T -> p <> q ->
  SetBit T (SetBit T this p) q = SetBit T (SetBit T this q) p
  /\ ClearBit T (ClearBit T this p) q = ClearBit T (ClearBit T this q) p
  /\ ToggleBit T (ToggleBit T this p) q = ToggleBit T (ToggleBit T this q) p
  /\ ClearBit T (SetBit T this p) q = SetBit T (ClearBit T this q) p
  /\ ToggleBit T (SetBit T this p) q = SetBit T (ToggleBit T this q) p
  /\ ToggleBit T (ClearBit T this p) q = ClearBit T (ToggleBit T this q) p.
Proof.
  intros Hp Hq Hne. repeat split; mask_eq T.
Qed.

Lemma mutators_commute_witness :
  SetBit uint8_t (SetBit uint8_t bitmask 0) 3
  = SetBit uint8_t (SetBit uint8_t bitmask 3) 0
  /\ ClearBit uint8_t (ClearBit uint8_t bitmask 0) 3
     = ClearBit uint8_t (ClearBit uint8_t bitmask 3) 0
  /\ ToggleBit uint8_t (ToggleBit uint8_t bitmask 0) 3
     = ToggleBit uint8_t (ToggleBit uint8_t bitmask 3) 0
  /\ ClearBit uint8_t (SetBit uint8_t bitmask 0) 3
     = SetBit uint8_t (ClearBit uint8_t bitmask 3) 0
  /\ ToggleBit uint8_t (SetBit uint8_t bitmask 0) 3
     = SetBit uint8_t (ToggleBit uint8_t bitmask 3) 0
  /\ ToggleBit uint8_t (ClearBit uint8_t bitmask 0) 3
     = ClearBit uint8_t (ToggleBit uint8_t bitmask 3) 0.
Proof. apply (mutators_commute uint8_t bitmask 0 3); by_evaluation. Defined.

(** X5: Positions at or above the storage width of a type narrower than [int]
    (where the shift is still defined) are ignored by every mutator and read
    as clear; [IsBitValidPos] nevertheless accepts the position [TMax] of
    [BitMask<MaskType>], which is the first of them. *)
Theorem positions_above_width_ignored
        (T : UIntType) (this : BitMaskBase) (p : Z) :
  mask_ok T this -> bit_width T <= p < 31 ->
  SetBit T this p = this
  /\ ClearBit T this p = this
  /\ ToggleBit T this p = this
  /\ IsBitSet T this p = false
  /\ IsBitValidPos (BitMask_TMax T) (BitMask_TMax T) = true.
Proof.
  intros Hok Hp. pose proof (bit_width_bounds T) as HB.
  assert (Hbit : forall i, 0 <= i < bit_width T ->
                           Z.testbit (Z.shiftl 1 (static_cast_MaskType T p)) i
                           = false).
  { intros i Hi. rewrite cast_le_64 by lia. apply one_shl_testbit; lia. }
  repeat split.
  - apply (mask_ext T); [apply cast_mask_ok | assumption |]. intros i Hi.
    unfold SetBit. cbn [Mask].
    rewrite low_bit, Z.lor_spec, Hbit by assumption. apply orb_false_r.
  - apply (mask_ext T); [apply cast_mask_ok | assumption |]. intros i Hi.
    unfold ClearBit. cbn [Mask].
    rewrite low_bit, Z.land_spec, Z.lnot_spec, Hbit by lia. apply andb_true_r.
  - apply (mask_ext T); [apply cast_mask_ok | assumption |]. intros i Hi.
    unfold ToggleBit. cbn [Mask].
    rewrite low_bit, Z.lxor_spec, Hbit by assumption. apply xorb_false_r.
  - unfold IsBitSet. rewrite cast_le_64, land_one_shl by lia.
    apply (mask_testbit_high T); [assumption | lia].
  - unfold IsBitValidPos, BitMask_TMax. fold (bit_width T).
    rewrite Z.leb_refl, andb_true_r. apply Z.geb_le. lia.
Qed.

Lemma positions_above_width_ignored_witness :
  SetBit uint8_t bitmask 8 = bitmask
  /\ ClearBit uint8_t bitmask 8 = bitmask
  /\ ToggleBit uint8_t bitmask 8 = bitmask
  /\ IsBitSet uint8_t bitmask 8 = false
  /\ IsBitValidPos (BitMask_TMax uint8_t) (BitMask_TMax uint8_t) = true.
Proof.
  apply (positions_above_width_ignored uint8_t bitmask 8); by_evaluation.
Defined.

(** ** ResetAllBits and AnyBitSet *)

(** X6: [AnyBitSet()] is true exactly when some position of the storage has
    [IsBitSet] true; after [ResetAllBits()] it is false and no position is
    set. *)
Theorem AnyBitSet_iff_some_IsBitSet (T : UIntType) (this : BitMaskBase) :
  mask_ok T this ->
  (AnyBitSet this = true
   <-> exists p, 0 <= p < bit_width T /\ IsBitSet T this p = true)
  /\ AnyBitSet (ResetAllBits this) = false
  /\ (forall p, 0 <= p < bit_width T ->
                IsBitSet T (ResetAllBits this) p = false).
Proof.
  intros [H0 HB]. unfold AnyBitSet. split; [| split].
  - split.
    + intros Hany. apply negb_true_iff, Z.eqb_neq in Hany.
      assert (Hpos : 0 < Mask this) by lia.
      pose proof (Z.log2_nonneg (Mask this)) as Hl0.
      assert (Hl : Z.log2 (Mask this) < bit_width T)
        by (apply Z.log2_lt_pow2; assumption).
      exists (Z.log2 (Mask this)).
      split; [lia |]. rewrite IsBitSet_testbit by lia.
      now apply Z.bit_log2.
    + intros [p [Hp Hset]]. rewrite IsBitSet_testbit in Hset by assumption.
      apply negb_true_iff, Z.eqb_neq. intros E.
      rewrite E, Z.bits_0 in Hset. discriminate.
  - reflexivity.
  - intros p Hp. rewrite IsBitSet_testbit by assumption. apply Z.bits_0.
Qed.

Lemma AnyBitSet_iff_some_IsBitSet_witness :
  (AnyBitSet bitmask = true
   <-> exists p, 0 <= p < bit_width uint8_t /\ IsBitSet uint8_t bitmask p = true)
  /\ AnyBitSet (ResetAllBits bitmask) = false
  /\ (forall p, 0 <= p < bit_width uint8_t ->
                IsBitSet uint8_t (ResetAllBits bitmask) p = false).
Proof. apply (AnyBitSet_iff_some_IsBitSet uint8_t bitmask). by_evaluation. Defined.

(** ** SetBits and the variadic constructor *)

Lemma static_cast_OpType_idem (O : OpKind) (v : Z) :
  static_cast_OpType O (static_cast_OpType O v) = static_cast_OpType O v.
Proof.
  destruct O as [T |]; simpl; [| reflexivity].
  unfold static_cast_MaskType. apply Z.mod_mod.
  pose proof (pow2_bit_width_large T). lia.
Qed.

(** The constructor casts each argument, and [SetBits] casts it again. *)
Lemma BitMaskBase_variadic_SetBits (T : UIntType) (O : OpKind) (bits : list Z) :
  BitMaskBase_variadic T O bits = SetBits T O BitMaskBase_default bits.
Proof.
  unfold BitMaskBase_variadic, SetBits, BitMaskBase_default.
  generalize {| Mask := 0 |}.
  induction bits as [| b bits IH]; intros m; simpl; [reflexivity |].
  now rewrite static_cast_OpType_idem, IH.
Qed.

Lemma SetBits_IsBitSet (T : UIntType) (O : OpKind) (bits : list Z) (q : Z) :
  0 <= q < bit_width T ->
  Forall (fun p => 0 <= p < bit_width T) bits ->
  forall this,
    IsBitSet T (SetBits T O this bits) q
    = IsBitSet T this q || existsb (Z.eqb q) bits.
Proof.
  intros Hq Hall. pose proof (bit_width_bounds T) as HB. unfold SetBits.
  induction Hall as [| b bits Hb Hall IH]; intros this; simpl.
  - now rewrite orb_false_r.
  - rewrite IH, static_cast_OpType_le_64 by lia.
    rewrite !IsBitSet_testbit, SetBit_testbit by assumption.
    now rewrite orb_assoc.
Qed.

(** X7: After [SetBits(positions...)] a valid position is set exactly when it was
    set before or is listed; a mask constructed from a list of valid
    positions has exactly the listed positions set, whatever their order and
    multiplicity. *)
Theorem SetBits_sets_exactly_the_listed
        (T : UIntType) (O : OpKind) (this : BitMaskBase)
        (bits : list Z) (q : Z) :
  0 <= q < bit_width T ->
  Forall (fun p => 0 <= p < bit_width T) bits ->
  (IsBitSet T (SetBits T O this bits) q = true
   <-> IsBitSet T this q = true \/ In q bits)
  /\ (IsBitSet T (BitMaskBase_variadic T O bits) q = true <-> In q bits).
Proof.
  intros Hq Hall.
  assert (Hin : existsb (Z.eqb q) bits = true <-> In q bits).
  { rewrite existsb_exists. split.
    - intros [x [Hx E]]. apply Z.eqb_eq in E. now subst.
    - intros H. exists q. split; [assumption | apply Z.eqb_refl]. }
  split.
  - rewrite SetBits_IsBitSet, orb_true_iff, Hin by assumption. reflexivity.
  - rewrite BitMaskBase_variadic_SetBits, SetBits_IsBitSet by assumption.
    unfold BitMaskBase_default at 1.
    rewrite IsBitSet_testbit by assumption. cbn [Mask].
    rewrite Z.bits_0. cbn [orb]. exact Hin.
Qed.

Lemma SetBits_sets_exactly_the_listed_witness :
  (IsBitSet uint8_t (SetBits uint8_t (OpIntegral uint8_t) bitmask [1; 3]) 3
   = true
   <-> IsBitSet uint8_t bitmask 3 = true \/ In 3 [1; 3])
  /\ (IsBitSet uint8_t (BitMaskBase_variadic uint8_t (OpIntegral uint8_t)
                                            [1; 3]) 3 = true
      <-> In 3 [1; 3]).
Proof.
  apply (SetBits_sets_exactly_the_listed
           uint8_t (OpIntegral uint8_t) bitmask [1; 3] 3).
  - by_evaluation.
  - repeat constructor; by_evaluation.
Defined.

(** ** Operators *)

Lemma BitMaskBase_default_ok (T : UIntType) : mask_ok T BitMaskBase_default.
Proof. apply (mutators_keep_mask_ok T BitMaskBase_default BitMaskBase_default 0). Qed.

Lemma operator_eq_true (a b : BitMaskBase) :
  operator_eq a b = true <-> a = b.
Proof.
  unfold operator_eq. rewrite Z.eqb_eq. destruct a, b; simpl.
  split; [now intros -> | now intros [= ->]].
Qed.

(** X8: [operator-] keeps the bits of the left operand that the right operand
    does not have: the result shares no bit with the right operand,
    [a - a] is the zero mask, [a - zero] is [a], removing twice is removing
    once, and [operator-=] leaves the same mask in the left operand. *)
Theorem operator_minus_laws (T : UIntType) (a b : BitMaskBase) :
  mask_ok T a -> mask_ok T b ->
  (forall q, 0 <= q < bit_width T ->
     IsBitSet T (operator_minus T a b) q
     = IsBitSet T a q && negb (IsBitSet T b q))
  /\ operator_eq (operator_minus T a a) BitMaskBase_default = true
  /\ operator_eq (operator_minus T a BitMaskBase_default) a = true
  /\ operator_eq (operator_minus T (operator_minus T a b) b)
                 (operator_minus T a b) = true
  /\ operator_eq (operator_minus T (operator_plus T a b) b)
                 (operator_minus T a b) = true
  /\ operator_minus_assign T a b = operator_minus T a b.
Proof.
  intros Ha Hb. pose proof (BitMaskBase_default_ok T) as H0.
  rewrite !operator_eq_true. repeat split.
  - intros q Hq. rewrite !IsBitSet_testbit by assumption.
    now rewrite operator_minus_testbit.
  - mask_eq T.
  - mask_eq T.
  - mask_eq T.
  - mask_eq T.
Qed.

Lemma operator_minus_laws_witness :
  (forall q, 0 <= q < bit_width uint8_t ->
     IsBitSet uint8_t (operator_minus uint8_t bitmask1 bitmask) q
     = IsBitSet uint8_t bitmask1 q && negb (IsBitSet uint8_t bitmask q))
  /\ operator_eq (operator_minus uint8_t bitmask1 bitmask1)
                 BitMaskBase_default = true
  /\ operator_eq (operator_minus uint8_t bitmask1 BitMaskBase_default)
                 bitmask1 = true
  /\ operator_eq
       (operator_minus uint8_t (operator_minus uint8_t bitmask1 bitmask)
                       bitmask)
       (operator_minus uint8_t bitmask1 bitmask) = true
  /\ operator_eq
       (operator_minus uint8_t (operator_plus uint8_t bitmask1 bitmask)
                       bitmask)
       (operator_minus uint8_t bitmask1 bitmask) = true
  /\ operator_minus_assign uint8_t bitmask1 bitmask
     = operator_minus uint8_t bitmask1 bitmask.
Proof.
  apply (operator_minus_laws uint8_t bitmask1 bitmask); by_evaluation.
Defined.

(** X9: [operator^] is commutative and associative, the zero mask is its
    identity and every mask is its own inverse, so applying the same operand
    twice gives the mask back; [operator^=] leaves the same mask in the left
    operand. *)
Theorem operator_xor_laws (T : UIntType) (a b c : BitMaskBase) :
  mask_ok T a -> mask_ok T b -> mask_ok T c ->
  operator_eq (operator_xor T a b) (operator_xor T b a) = true
  /\ operator_eq (operator_xor T (operator_xor T a b) c)
                 (operator_xor T a (operator_xor T b c)) = true
  /\ operator_eq (operator_xor T a BitMaskBase_default) a = true
  /\ operator_eq (operator_xor T a a) BitMaskBase_default = true
  /\ operator_eq (operator_xor T (operator_xor T a b) b) a = true
  /\ operator_xor_assign T a b = operator_xor T a b.
Proof.
  intros Ha Hb Hc. pose proof (BitMaskBase_default_ok T) as H0.
  rewrite !operator_eq_true.
  repeat split; mask_eq T.
Qed.

Lemma operator_xor_laws_witness :
  operator_eq (operator_xor uint8_t bitmask1 bitmask3)
              (operator_xor uint8_t bitmask3 bitmask1) = true
  /\ operator_eq
       (operator_xor uint8_t (operator_xor uint8_t bitmask1 bitmask3) bitmask)
       (operator_xor uint8_t bitmask1 (operator_xor uint8_t bitmask3 bitmask))
     = true
  /\ operator_eq (operator_xor uint8_t bitmask1 BitMaskBase_default) bitmask1
     = true
  /\ operator_eq (operator_xor uint8_t bitmask1 bitmask1) BitMaskBase_default
     = true
  /\ operator_eq
       (operator_xor uint8_t (operator_xor uint8_t bitmask1 bitmask3) bitmask3)
       bitmask1 = true
  /\ operator_xor_assign uint8_t bitmask1 bitmask3
     = operator_xor uint8_t bitmask1 bitmask3.
Proof.
  apply (operator_xor_laws uint8_t bitmask1 bitmask3 bitmask); by_evaluation.
Defined.

(** X10: The three binary operators fit together: [a ^ b] is what either operand
    has without the other, [a + b] is [a] together with what [b] has beyond
    it, and removing from [a] what [a - b] keeps leaves the bits common to
    both, which [a ^ b] lacks. *)
Theorem operators_fit_together (T : UIntType) (a b : BitMaskBase) :
  mask_ok T a -> mask_ok T b ->
  operator_eq (operator_xor T a b)
              (operator_plus T (operator_minus T a b) (operator_minus T b a))
  = true
  /\ operator_eq (operator_plus T a b)
                 (operator_xor T a (operator_minus T b a)) = true
  /\ operator_eq (operator_xor T a b)
                 (operator_minus T (operator_plus T a b)
                    (operator_minus T a (operator_minus T a b))) = true.
Proof.
  intros Ha Hb. rewrite !operator_eq_true. repeat split; mask_eq T.
Qed.

Lemma operators_fit_together_witness :
  operator_eq (operator_xor uint8_t bitmask1 bitmask)
              (operator_plus uint8_t (operator_minus uint8_t bitmask1 bitmask)
                             (operator_minus uint8_t bitmask bitmask1))
  = true
  /\ operator_eq (operator_plus uint8_t bitmask1 bitmask)
                 (operator_xor uint8_t bitmask1
                               (operator_minus uint8_t bitmask bitmask1))
     = true
  /\ operator_eq (operator_xor uint8_t bitmask1 bitmask)
                 (operator_minus uint8_t (operator_plus uint8_t bitmask1 bitmask)
                    (operator_minus uint8_t bitmask1
                       (operator_minus uint8_t bitmask1 bitmask))) = true.
Proof.
  apply (operators_fit_together uint8_t bitmask1 bitmask); by_evaluation.
Defined.

Lemma all_ones_max (T : UIntType) (x : BitMaskBase) :
  mask_ok T x ->
  (forall i, 0 <= i < bit_width T -> Z.testbit (Mask x) i = true) ->
  Mask x = numeric_limits_max T.
Proof.
  intros Hx Hbits. pose proof (bit_width_bounds T) as HB.
  unfold numeric_limits_max.
  replace (2 ^ bit_width T - 1) with (Z.ones (bit_width T))
    by (rewrite Z.ones_equiv; lia).
  apply Z.bits_inj'. intros i Hi.
  destruct (Z.ltb_spec i (bit_width T)) as [Hlt | Hge].
  - now rewrite Hbits, Z.ones_spec_low by lia.
  - now rewrite (mask_testbit_high T x i Hx), Z.ones_spec_high by lia.
Qed.

Lemma filter_negb_length {A : Type} (f : A -> bool) (l : list A) :
  (length (filter f l) + length (filter (fun x => negb (f x)) l)
   = length l)%nat.
Proof.
  induction l as [| x l IH]; simpl; [reflexivity |].
  destruct (f x); simpl; lia.
Qed.

(** The count of the low [k] bits only looks at those bits. *)
Lemma ones_below_filter (m : Z) (k : nat) (f : Z -> bool) :
  (forall i, 0 <= i < Z.of_nat k -> Z.testbit m i = f i) ->
  ones_below m k
  = Z.of_nat (length (filter f (map Z.of_nat (seq 0 k)))).
Proof.
  intros H. unfold ones_below. do 2 f_equal.
  apply filter_ext_in. intros x Hx.
  apply in_map_iff in Hx. destruct Hx as [j [<- Hj]].
  apply in_seq in Hj. apply H. lia.
Qed.

(** X11: [operator~] negates every bit of the storage: it is its own inverse,
    a mask combined with its complement has all bits set, a mask shares no
    bit with its complement, and the set bits of a mask and of its
    complement add up to the storage width. *)
Theorem operator_compl_laws (T : UIntType) (a : BitMaskBase) :
  mask_ok T a ->
  (forall q, 0 <= q < bit_width T ->
     IsBitSet T (operator_compl T a) q = negb (IsBitSet T a q))
  /\ operator_compl T (operator_compl T a) = a
  /\ AllBitsSet T (operator_plus T a (operator_compl T a)) = true
  /\ operator_eq (operator_minus T a (operator_compl T a)) a = true
  /\ (exists c, CountSetBits T a = Some c
                /\ CountSetBits T (operator_compl T a)
                   = Some (bit_width T - c)).
Proof.
  intros Ha. pose proof (bit_width_bounds T) as HB.
  rewrite operator_eq_true. repeat split.
  - intros q Hq. rewrite !IsBitSet_testbit by assumption.
    now rewrite operator_compl_testbit.
  - mask_eq T.
  - unfold AllBitsSet. apply Z.eqb_eq.
    apply all_ones_max; [apply cast_mask_ok |].
    intros i Hi. repeat bit_view. bool_cases.
  - mask_eq T.
  - eexists. split; [now apply CountSetBits_ones |].
    rewrite CountSetBits_ones by apply cast_mask_ok. f_equal.
    rewrite (ones_below_filter (Mask (operator_compl T a)) _
               (fun i => negb (Z.testbit (Mask a) i)))
      by (intros i Hi; apply operator_compl_testbit; lia).
    unfold ones_below.
    pose proof (filter_negb_length
                  (Z.testbit (Mask a))
                  (map Z.of_nat (seq 0 (Z.to_nat (bit_width T))))) as E.
    rewrite length_map, length_seq in E. lia.
Qed.

Lemma operator_compl_laws_witness :
  (forall q, 0 <= q < bit_width uint8_t ->
     IsBitSet uint8_t (operator_compl uint8_t bitmask) q
     = negb (IsBitSet uint8_t bitmask q))
  /\ operator_compl uint8_t (operator_compl uint8_t bitmask) = bitmask
  /\ AllBitsSet uint8_t
       (operator_plus uint8_t bitmask (operator_compl uint8_t bitmask)) = true
  /\ operator_eq
       (operator_minus uint8_t bitmask (operator_compl uint8_t bitmask))
       bitmask = true
  /\ (exists c, CountSetBits uint8_t bitmask = Some c
                /\ CountSetBits uint8_t (operator_compl uint8_t bitmask)
                   = Some (bit_width uint8_t - c)).
Proof. apply (operator_compl_laws uint8_t bitmask). by_evaluation. Defined.

(** ** Shifts *)

Lemma operator_shl_testbit (T : UIntType) (a : BitMaskBase) (s i : Z) :
  0 <= i < bit_width T ->
  Z.testbit (Mask (operator_shl T a s)) i = Z.testbit (Mask a) (i - s).
Proof.
  intros Hi. unfold operator_shl. cbn [Mask].
  now rewrite low_bit, Z.shiftl_spec by lia.
Qed.

Lemma operator_shr_testbit (T : UIntType) (a : BitMaskBase) (s i : Z) :
  0 <= i < bit_width T ->
  Z.testbit (Mask (operator_shr T a s)) i = Z.testbit (Mask a) (i + s).
Proof.
  intros Hi. unfold operator_shr. cbn [Mask].
  now rewrite low_bit, Z.shiftr_spec by lia.
Qed.

(** X12: For a shift count within the storage width, [operator<<] moves bit
    [q - s] to position [q] and fills the low [s] positions with 0;
    [operator>>] moves bit [q + s] to position [q] and fills from the top
    with 0.  Shifting left and back right keeps only the low
    [bit_width - s] bits, so it gives the mask back exactly when the mask
    has no bit among the top [s]; shifting right and back left clears the
    low [s] bits. *)
Theorem shift_laws (T : UIntType) (a : BitMaskBase) (s : Z) :
  mask_ok T a -> 0 <= s < bit_width T ->
  (forall q, 0 <= q < bit_width T ->
     IsBitSet T (operator_shl T a s) q
     = if s <=? q then IsBitSet T a (q - s) else false)
  /\ (forall q, 0 <= q < bit_width T ->
        IsBitSet T (operator_shr T a s) q
        = if q + s <? bit_width T then IsBitSet T a (q + s) else false)
  /\ Mask (operator_shr T (operator_shl T a s) s)
     = Mask a mod 2 ^ (bit_width T - s)
  /\ (operator_shr T (operator_shl T a s) s = a
      <-> Mask a < 2 ^ (bit_width T - s))
  /\ Mask (operator_shl T (operator_shr T a s) s)
     = Mask a - Mask a mod 2 ^ s.
Proof.
  intros Ha Hs. pose proof (bit_width_bounds T) as HB.
  assert (Hround : Mask (operator_shr T (operator_shl T a s) s)
                   = Mask a mod 2 ^ (bit_width T - s)).
  { apply Z.bits_inj'. intros i Hi.
    rewrite Z.testbit_mod_pow2 by lia.
    destruct (Z.ltb_spec i (bit_width T - s)) as [Hlt | Hge]; cbn [andb].
    - rewrite operator_shr_testbit, operator_shl_testbit by lia.
      f_equal. lia.
    - destruct (Z.ltb_spec i (bit_width T)) as [Hlt' | Hge'].
      + rewrite operator_shr_testbit by lia.
        apply (mask_testbit_high T); [apply cast_mask_ok | lia].
      + apply (mask_testbit_high T); [apply cast_mask_ok | lia]. }
  repeat split.
  - intros q Hq. rewrite IsBitSet_testbit, operator_shl_testbit by assumption.
    destruct (Z.leb_spec s q).
    + now rewrite IsBitSet_testbit by lia.
    + apply Z.testbit_neg_r. lia.
  - intros q Hq. rewrite IsBitSet_testbit, operator_shr_testbit by assumption.
    destruct (Z.ltb_spec (q + s) (bit_width T)).
    + now rewrite IsBitSet_testbit by lia.
    + apply (mask_testbit_high T); [assumption | lia].
  - exact Hround.
  - intros E. rewrite E in Hround. rewrite Hround.
    apply Z.mod_pos_bound. apply Z.pow_pos_nonneg; lia.
  - intros Hlt. destruct Ha as [Ha0 Ha1].
    rewrite Z.mod_small in Hround by lia.
    destruct a as [m], (operator_shr T (operator_shl T {| Mask := m |} s) s).
    simpl in Hround. now subst.
  - destruct Ha as [Ha0 Ha1].
    unfold operator_shl, operator_shr. cbn [Mask].
    assert (H2s : 0 < 2 ^ s) by (apply Z.pow_pos_nonneg; lia).
    assert (Hdiv : 0 <= Mask a / 2 ^ s <= Mask a).
    { split; [apply Z.div_pos; lia |].
      apply Z.div_le_upper_bound; [lia | nia]. }
    rewrite (cast_small T (Z.shiftr (Mask a) s))
      by (rewrite Z.shiftr_div_pow2 by lia; lia).
    rewrite Z.shiftr_div_pow2, Z.shiftl_mul_pow2 by lia.
    pose proof (Z.div_mod (Mask a) (2 ^ s) ltac:(lia)) as Hdm.
    pose proof (Z.mod_pos_bound (Mask a) (2 ^ s) H2s) as Hmod.
    rewrite cast_small by nia. nia.
Qed.

Lemma shift_laws_witness :
  (forall q, 0 <= q < bit_width uint8_t ->
     IsBitSet uint8_t (operator_shl uint8_t bitmask 3) q
     = if 3 <=? q then IsBitSet uint8_t bitmask (q - 3) else false)
  /\ (forall q, 0 <= q < bit_width uint8_t ->
        IsBitSet uint8_t (operator_shr uint8_t bitmask 3) q
        = if q + 3 <? bit_width uint8_t
          then IsBitSet uint8_t bitmask (q + 3) else false)
  /\ Mask (operator_shr uint8_t (operator_shl uint8_t bitmask 3) 3)
     = Mask bitmask mod 2 ^ (bit_width uint8_t - 3)
  /\ (operator_shr uint8_t (operator_shl uint8_t bitmask 3) 3 = bitmask
      <-> Mask bitmask < 2 ^ (bit_width uint8_t - 3))
  /\ Mask (operator_shl uint8_t (operator_shr uint8_t bitmask 3) 3)
     = Mask bitmask - Mask bitmask mod 2 ^ 3.
Proof. apply (shift_laws uint8_t bitmask 3); by_evaluation. Defined.

(** ** CountSetBits under the operations *)

Lemma positions_NoDup (k : nat) : NoDup (map Z.of_nat (seq 0 k)).
Proof.
  generalize 0%nat. induction k as [| k IH]; intros s; simpl; constructor.
  - rewrite in_map_iff. intros [j [E Hj]]. apply in_seq in Hj. lia.
  - apply IH.
Qed.

Lemma filter_length_one_more (l : list Z) (f g : Z -> bool) (p : Z) :
  NoDup l -> In p l -> f p = false -> g p = true ->
  (forall x, In x l -> x <> p -> g x = f x) ->
  length (filter g l) = S (length (filter f l)).
Proof.
  intros Hnd. induction Hnd as [| x l Hx Hnd IH]; intros Hin Hf Hg Hsame.
  - destruct Hin.
  - simpl. destruct (Z.eq_dec x p) as [-> | Hne].
    + rewrite Hf, Hg. simpl. do 2 f_equal.
      apply filter_ext_in. intros y Hy. apply Hsame; [now right |].
      intros ->. contradiction.
    + rewrite (Hsame x) by (now left || assumption).
      assert (Hrec : length (filter g l) = S (length (filter f l))).
      { apply IH; try assumption.
        - destruct Hin as [E | Hin]; [congruence | assumption].
        - intros y Hy. apply Hsame. now right. }
      destruct (f x); simpl; now rewrite Hrec.
Qed.

Lemma ones_below_one_more (m m' : Z) (n : nat) (p : Z) :
  0 <= p < Z.of_nat n ->
  Z.testbit m p = false -> Z.testbit m' p = true ->
  (forall i, 0 <= i < Z.of_nat n -> i <> p -> Z.testbit m' i = Z.testbit m i) ->
  ones_below m' n = ones_below m n + 1.
Proof.
  intros Hp Hm Hm' Hsame. unfold ones_below.
  rewrite (filter_length_one_more _ (Z.testbit m) (Z.testbit m') p);
    try assumption; [lia | apply positions_NoDup | |].
  - apply in_map_iff. exists (Z.to_nat p). split; [lia |].
    apply in_seq. lia.
  - intros x Hx. apply in_map_iff in Hx. destruct Hx as [j [<- Hj]].
    apply in_seq in Hj. apply Hsame. lia.
Qed.

Lemma ones_below_pos (m : Z) (n : nat) (p : Z) :
  0 <= p < Z.of_nat n -> Z.testbit m p = true -> 0 < ones_below m n.
Proof.
  intros Hp Hb. unfold ones_below.
  assert (Hin : In p (filter (Z.testbit m) (map Z.of_nat (seq 0 n)))).
  { apply filter_In. split; [| assumption].
    apply in_map_iff. exists (Z.to_nat p). split; [lia |].
    apply in_seq. lia. }
  destruct (filter (Z.testbit m) (map Z.of_nat (seq 0 n)));
    [destruct Hin | simpl; lia].
Qed.

(** X13: [CountSetBits()] lies between 0 and the storage width and is 0 exactly
    when [AnyBitSet()] is false.  [SetBit(p)] on a clear bit adds one to it,
    [ClearBit(p)] on a set bit takes one away, [ToggleBit(p)] does the one or
    the other, and a mutator that finds the bit as it would leave it keeps
    the count. *)
Theorem CountSetBits_single_bit (T : UIntType) (this : BitMaskBase) (p : Z) :
  mask_ok T this -> 0 <= p < bit_width T ->
  exists c,
    CountSetBits T this = Some c
    /\ 0 <= c <= bit_width T
    /\ (c = 0 <-> AnyBitSet this = false)
    /\ CountSetBits T (SetBit T this p)
       = Some (if IsBitSet T this p then c else c + 1)
    /\ CountSetBits T (ClearBit T this p)
       = Some (if IsBitSet T this p then c - 1 else c)
    /\ CountSetBits T (ToggleBit T this p)
       = Some (if IsBitSet T this p then c - 1 else c + 1).
Proof.
  intros Hok Hp. pose proof (bit_width_bounds T) as HB.
  set (n := Z.to_nat (bit_width T)).
  assert (Hn : Z.of_nat n = bit_width T) by (subst n; lia).
  exists (ones_below (Mask this) n).
  rewrite !CountSetBits_ones by (assumption || apply cast_mask_ok).
  fold n. rewrite IsBitSet_testbit by assumption.
  pose proof (ones_below_bounds (Mask this) n) as Hc.
  split; [reflexivity |]. split; [lia |]. split.
  { unfold AnyBitSet. rewrite negb_false_iff, Z.eqb_eq. split.
    - intros Hz.
      destruct (Z.eq_dec (Mask this) 0) as [E | Hne]; [assumption |].
      destruct Hok as [H0 H1].
      pose proof (Z.log2_nonneg (Mask this)).
      assert (Z.log2 (Mask this) < bit_width T)
        by (apply Z.log2_lt_pow2; lia).
      pose proof (ones_below_pos (Mask this) n (Z.log2 (Mask this))
                    ltac:(lia) (Z.bit_log2 (Mask this) ltac:(lia))).
      lia.
    - intros ->. apply ones_below_zero. }
  destruct (Z.testbit (Mask this) p) eqn:Hb.
  - (* the bit is set *)
    assert (Hset : SetBit T this p = this).
    { apply (mask_ext T); [apply cast_mask_ok | assumption |].
      intros i Hi. bit_view.
      destruct (Z.eqb_spec i p) as [-> | _];
        [rewrite Hb; reflexivity | apply orb_false_r]. }
    assert (Htog : ToggleBit T this p = ClearBit T this p).
    { apply (mask_ext T); try apply cast_mask_ok.
      intros i Hi. bit_view.
      destruct (Z.eqb_spec i p) as [-> | _];
        [rewrite Hb; reflexivity
        | now rewrite xorb_false_r, andb_true_r]. }
    rewrite Hset, Htog.
    assert (E : ones_below (Mask this) n
                = ones_below (Mask (ClearBit T this p)) n + 1).
    { apply (ones_below_one_more _ _ n p); try assumption; [lia | |].
      - bit_view. rewrite Z.eqb_refl. apply andb_false_r.
      - intros i Hi Hne. bit_view.
        destruct (Z.eqb_spec i p); [contradiction | cbn [negb]].
        now rewrite andb_true_r. }
    repeat split; f_equal; lia.
  - (* the bit is clear *)
    assert (Hclr : ClearBit T this p = this).
    { apply (mask_ext T); [apply cast_mask_ok | assumption |].
      intros i Hi. bit_view.
      destruct (Z.eqb_spec i p) as [-> | _];
        [rewrite Hb; reflexivity | apply andb_true_r]. }
    assert (Htog : ToggleBit T this p = SetBit T this p).
    { apply (mask_ext T); try apply cast_mask_ok.
      intros i Hi. bit_view.
      destruct (Z.eqb_spec i p) as [-> | _];
        [rewrite Hb; reflexivity
        | now rewrite xorb_false_r, orb_false_r]. }
    rewrite Hclr, Htog.
    assert (E : ones_below (Mask (SetBit T this p)) n
                = ones_below (Mask this) n + 1).
    { apply (ones_below_one_more _ _ n p); try assumption; [lia | |].
      - bit_view. rewrite Z.eqb_refl. apply orb_true_r.
      - intros i Hi Hne. bit_view.
        destruct (Z.eqb_spec i p); [contradiction |]. apply orb_false_r. }
    repeat split; f_equal; lia.
Qed.

Lemma CountSetBits_single_bit_witness :
  exists c,
    CountSetBits uint8_t bitmask = Some c
    /\ 0 <= c <= bit_width uint8_t
    /\ (c = 0 <-> AnyBitSet bitmask = false)
    /\ CountSetBits uint8_t (SetBit uint8_t bitmask 3)
       = Some (if IsBitSet uint8_t bitmask 3 then c else c + 1)
    /\ CountSetBits uint8_t (ClearBit uint8_t bitmask 3)
       = Some (if IsBitSet uint8_t bitmask 3 then c - 1 else c)
    /\ CountSetBits uint8_t (ToggleBit uint8_t bitmask 3)
       = Some (if IsBitSet uint8_t bitmask 3 then c - 1 else c + 1).
Proof. apply (CountSetBits_single_bit uint8_t bitmask 3); by_evaluation. Defined.

Lemma filter_orb_length {A : Type} (f g : A -> bool) (l : list A) :
  length (filter (fun x => f x || g x) l)
  = (length (filter f l)
     + length (filter (fun x => g x && negb (f x)) l))%nat.
Proof.
  induction l as [| x l IH]; simpl; [reflexivity |].
  destruct (f x), (g x); simpl; lia.
Qed.

(** X14: The set bits of [a + b] are those of [a] and those [b] has beyond [a]:
    the two counts add up, and the count of a combination is at least the
    count of either operand. *)
Theorem CountSetBits_operator_plus (T : UIntType) (a b : BitMaskBase) :
  mask_ok T a -> mask_ok T b ->
  exists ca cb cd,
    CountSetBits T a = Some ca
    /\ CountSetBits T b = Some cb
    /\ CountSetBits T (operator_minus T b a) = Some cd
    /\ CountSetBits T (operator_plus T a b) = Some (ca + cd)
    /\ 0 <= cd <= cb.
Proof.
  intros Ha Hb. set (n := Z.to_nat (bit_width T)).
  pose proof (bit_width_bounds T) as HB.
  assert (Hn : Z.of_nat n = bit_width T) by (subst n; lia).
  exists (ones_below (Mask a) n), (ones_below (Mask b) n),
         (ones_below (Mask (operator_minus T b a)) n).
  rewrite !CountSetBits_ones by (assumption || apply cast_mask_ok).
  fold n. repeat split; try apply ones_below_bounds.
  - f_equal.
    rewrite (ones_below_filter (Mask (operator_plus T a b)) n
               (fun i => Z.testbit (Mask a) i || Z.testbit (Mask b) i))
      by (intros i Hi; apply operator_plus_testbit; lia).
    rewrite (ones_below_filter (Mask (operator_minus T b a)) n
               (fun i => Z.testbit (Mask b) i && negb (Z.testbit (Mask a) i)))
      by (intros i Hi; apply operator_minus_testbit; lia).
    unfold ones_below. rewrite filter_orb_length. lia.
  - rewrite (ones_below_filter (Mask (operator_minus T b a)) n
               (fun i => Z.testbit (Mask b) i && negb (Z.testbit (Mask a) i)))
      by (intros i Hi; apply operator_minus_testbit; lia).
    unfold ones_below. apply inj_le.
    generalize (map Z.of_nat (seq 0 n)). intros l.
    induction l as [| x l IH]; simpl; [lia |].
    destruct (Z.testbit (Mask b) x), (Z.testbit (Mask a) x); simpl; lia.
Qed.

Lemma CountSetBits_operator_plus_witness :
  exists ca cb cd,
    CountSetBits uint8_t bitmask1 = Some ca
    /\ CountSetBits uint8_t bitmask3 = Some cb
    /\ CountSetBits uint8_t (operator_minus uint8_t bitmask3 bitmask1)
       = Some cd
    /\ CountSetBits uint8_t (operator_plus uint8_t bitmask1 bitmask3)
       = Some (ca + cd)
    /\ 0 <= cd <= cb.
Proof.
  apply (CountSetBits_operator_plus uint8_t bitmask1 bitmask3); by_evaluation.
Defined.

(** ** The string determines the logical bits *)

Lemma msb_first_inj (v w : Z) (n : nat) :
  msb_first v n = msb_first w n ->
  forall i, 0 <= i < Z.of_nat n -> Z.testbit v i = Z.testbit w i.
Proof.
  induction n as [| n IH]; intros E i Hi; [lia |].
  cbn [msb_first] in E. injection E as Hc Hrest.
  destruct (Z.eq_dec i (Z.of_nat n)) as [-> | Hne].
  - rewrite !bit_char_testbit in Hc.
    destruct (Z.testbit v (Z.of_nat n)), (Z.testbit w (Z.of_nat n));
      (reflexivity || discriminate).
  - apply IH; [assumption | lia].
Qed.

(** X15: Two masks have the same [toBinaryString()] exactly when their storages
    agree on the low [TMax] bits; so a mask whose storage stays below
    [2 ^ TMax] can be read back from its string. *)
Theorem toBinaryString_determines_low_bits
        (T : UIntType) (TMax : Z) (a b : BitMaskBase) :
  TMax_fits T TMax ->
  (toBinaryString TMax a = toBinaryString TMax b
   <-> Mask a mod 2 ^ TMax = Mask b mod 2 ^ TMax)
  /\ (Mask a < 2 ^ TMax -> Mask b < 2 ^ TMax ->
      mask_ok T a -> mask_ok T b ->
      toBinaryString TMax a = toBinaryString TMax b -> a = b).
Proof.
  intros [H0 HB]. rewrite !toBinaryString_msb_first.
  assert (Hiff : msb_first (Mask a) (Z.to_nat TMax)
                 = msb_first (Mask b) (Z.to_nat TMax)
                 <-> Mask a mod 2 ^ TMax = Mask b mod 2 ^ TMax).
  { split.
    - intros E. apply Z.bits_inj'. intros i Hi.
      rewrite !Z.testbit_mod_pow2 by assumption.
      destruct (Z.ltb_spec i TMax); [cbn [andb] | reflexivity].
      apply (msb_first_inj _ _ _ E). lia.
    - intros E. apply msb_first_ext. intros p Hp.
      rewrite <- (Z.mod_pow2_bits_low (Mask a) TMax p) by lia.
      rewrite <- (Z.mod_pow2_bits_low (Mask b) TMax p) by lia.
      now rewrite E. }
  split; [exact Hiff |].
  intros Ha Hb [Ha0 _] [Hb0 _] E. apply Hiff in E.
  rewrite !Z.mod_small in E by lia.
  destruct a, b. simpl in E. now subst.
Qed.

Lemma toBinaryString_determines_low_bits_witness :
  (toBinaryString Enummask_TMax enumMask
   = toBinaryString Enummask_TMax enumMask_shifted
   <-> Mask enumMask mod 2 ^ Enummask_TMax
       = Mask enumMask_shifted mod 2 ^ Enummask_TMax)
  /\ operator_xor uint8_t (operator_xor uint8_t bitmask bitmask1) bitmask1
     = bitmask.
Proof.
  split.
  - apply (proj1 (toBinaryString_determines_low_bits
                    uint16_t Enummask_TMax enumMask enumMask_shifted
                    ltac:(by_evaluation))).
  - apply (proj2 (toBinaryString_determines_low_bits
                    uint8_t 8
                    (operator_xor uint8_t
                       (operator_xor uint8_t bitmask bitmask1) bitmask1)
                    bitmask ltac:(by_evaluation)));
      by_evaluation.
Defined.

(** ** IsBitNSet as a threshold test *)

(** X16: For [n >= 0], [IsBitNSet(n)] returns [n] exactly when the mask has at
    least [n] set bits; it never exceeds [n] or [CountSetBits()], it grows
    with [n], and from [n] equal to the storage width on it is
    [CountSetBits()]. *)
Theorem IsBitNSet_threshold
        (T : UIntType) (O : OpKind) (this : BitMaskBase) (n : Z) :
  mask_ok T this -> 0 <= n ->
  exists c r,
    CountSetBits T this = Some c
    /\ IsBitNSet T O this n = Some r
    /\ (r = n <-> n <= c)
    /\ r <= n /\ r <= c
    /\ (bit_width T <= n -> r = c)
    /\ (forall n', n <= n' ->
          exists r', IsBitNSet T O this n' = Some r' /\ r <= r').
Proof.
  intros Hok Hn.
  pose proof (ones_below_bounds (Mask this) (Z.to_nat (bit_width T))) as Hc.
  pose proof (bit_width_bounds T) as HB.
  do 2 eexists. split; [now apply CountSetBits_ones |].
  split; [now apply IsBitNSet_run |].
  destruct (Z.ltb_spec 0 n).
  - repeat split; try lia.
    intros n' Hn'. eexists. split; [now apply IsBitNSet_run |].
    destruct (Z.ltb_spec 0 n'); lia.
  - repeat split; try lia.
    intros n' Hn'. eexists. split; [now apply IsBitNSet_run |].
    destruct (Z.ltb_spec 0 n'); lia.
Qed.

Lemma IsBitNSet_threshold_witness :
  exists c r,
    CountSetBits uint8_t bitmask = Some c
    /\ IsBitNSet uint8_t (OpIntegral uint8_t) bitmask 2 = Some r
    /\ (r = 2 <-> 2 <= c)
    /\ r <= 2 /\ r <= c
    /\ (bit_width uint8_t <= 2 -> r = c)
    /\ (forall n', 2 <= n' ->
          exists r', IsBitNSet uint8_t (OpIntegral uint8_t) bitmask n'
                     = Some r' /\ r <= r').
Proof.
  apply (IsBitNSet_threshold uint8_t (OpIntegral uint8_t) bitmask 2);
    by_evaluation.
Defined.
